(** * binance-btc-live-tracker: feed client, latest-value slot and render loop

    A shallow embedding of [src/bitcoin_current_price.py] (the reconnecting
    websocket generator [stream_latest_price]) and of [src/app.py] (the
    one-slot hand-off queue, the render loop, the x-axis window rule, the
    trim step and the y-axis range rule).

    Conventions.
    - A [datetime] is an instant, counted in microseconds (its resolution)
      as a [Z]; a [timedelta] is a [Z] of microseconds.  [astimezone] keeps
      the instant, so Eastern-time values are the same numbers.
    - A price is a finite Python [float], modelled by the rational it
      denotes ([Q]); infinities and NaN, which [float] can also return, are
      not values of the model.  [y_low], [y_high] and [y_axis_range] take
      the quotients of lines 158-159 exactly; [y_low_float], [y_high_float]
      and [y_axis_range_float] round every float operation to binary64
      ([Binary64]).  The two agree on the prices of [exact_for_ticks].
    - A Python exception is a constructor of [exn]; code that can raise
      returns a [result]. *)

From Stdlib Require Import ZArith QArith Qround Qabs Qpower String List Sorted.
From Stdlib Require Import Bool Lia Lqa.
Import ListNotations.
Open Scope Z_scope.

(** ** Exceptions and results *)

(** The exception classes the two files can meet.  [OSError] stands for the
    class and its subclasses (connection refused or reset, time-out, name
    resolution); [JSONDecodeError] is a [ValueError], not an [OSError]. *)
Inductive exn : Type :=
| ConnectionClosedError
| ConnectionClosedOK
| InvalidStatusCode
| OSError
| JSONDecodeError
| KeyError
| TypeError
| ValueError
| IndexError
| AttributeError
| QueueEmpty
| QueueFull.

Inductive result (A : Type) : Type :=
| Ok (a : A)
| Raise (e : exn).

Arguments Ok {A} a.
Arguments Raise {A} e.

Definition bind {A B : Type} (r : result A) (k : A -> result B) : result B :=
  match r with
  | Ok a => k a
  | Raise e => Raise e
  end.

Notation "x <- r ;; k" := (bind r (fun x => k))
  (at level 61, r at next level, right associativity).

(** ** [queue.Queue(maxsize)]: the operations the program calls *)

Module Queue.

Section Bounded.

Context {A : Type}.
Variable maxsize : nat.

Definition t : Type := list A.

Definition empty : t := [].

(** [full()] is [0 < maxsize <= qsize()]. *)
Definition full (q : t) : bool :=
  ((0 <? maxsize)%nat && (maxsize <=? length q)%nat)%bool.

Definition get_nowait (q : t) : result (A * t) :=
  match q with
  | [] => Raise QueueEmpty
  | x :: q' => Ok (x, q')
  end.

Definition put_nowait (x : A) (q : t) : result t :=
  if full q then Raise QueueFull else Ok (q ++ [x]).

(** [try: while True: q.get_nowait() except queue.Empty: pass] *)
Fixpoint discard_all (q : t) : t :=
  match q with
  | [] => []
  | _ :: q' => discard_all q'
  end.

End Bounded.

End Queue.

(** ** app.py: constants, session state, the tick queue *)

Definition WINDOW_SECS : Z := 20 * 60.
Definition Y_TICK_INTERVAL : Z := 250.

(** [timedelta(seconds = n)] in microseconds. *)
Definition timedelta_seconds (n : Z) : Z := n * 1000000.

Definition datetime : Type := Z.
Definition price : Type := Q.

(** What the queue carries: [(ts, price)]. *)
Definition tick_item : Type := (datetime * price)%type.

(** [tick_queue = queue.Queue(maxsize = 1)] *)
Definition tick_queue_maxsize : nat := 1.
Definition tick_queue : Type := @Queue.t tick_item.

(** [st.session_state.times] and [st.session_state.prices]. *)
Record session : Type := mkSession {
  times : list datetime;
  prices : list price
}.

Definition initial_session : session := mkSession [] [].

(** *** Producer: the body of [consume]'s [async for], lines 41-50 *)

Definition put_latest (ts : datetime) (p : price) (q : tick_queue) : tick_queue :=
  let q1 := Queue.discard_all q in
  match Queue.put_nowait tick_queue_maxsize (ts, p) q1 with
  | Ok q2 => q2
  | Raise _ => q1
  end.

(** Deliveries of the feed one after the other, nothing taken in between. *)
Definition put_all (obs : list tick_item) (q : tick_queue) : tick_queue :=
  fold_left (fun q o => put_latest (fst o) (snd o) q) obs q.

(** *** Consumer: the drain at the head of the render loop, lines 94-101 *)

Definition append_tick (s : session) (o : tick_item) : session :=
  mkSession (times s ++ [fst o]) (prices s ++ [snd o]).

Fixpoint drain (q : tick_queue) (s : session) (updated : bool)
  : tick_queue * session * bool :=
  match q with
  | [] => (q, s, updated)
  | o :: q' => drain q' (append_tick s o) true
  end.

(** One non-blocking take, as the spec's LatestSlot names it. *)
Definition take (q : tick_queue) : option tick_item * tick_queue :=
  match Queue.get_nowait q with
  | Ok (o, q') => (Some o, q')
  | Raise _ => (None, q)
  end.

(** *** X-axis range rule, lines 110-118 *)

Definition window : Z := timedelta_seconds WINDOW_SECS.

Definition x_axis_range (first_utc now_utc : datetime) : datetime * datetime :=
  if now_utc - first_utc <? window
  then (first_utc, first_utc + window)
  else (now_utc - window, now_utc).

(** *** Trim step, lines 120-128 *)

(** [while i < len(times_utc) and times_utc[i] < x_start_utc: i += 1].
    [nth_error] is [None] exactly when [i < len(times_utc)] fails.  The loop
    runs at most [len(times_utc)] times; [fuel] bounds the iterations. *)
Fixpoint trim_loop (fuel : nat) (times_utc : list datetime)
  (x_start_utc : datetime) (i : nat) : nat :=
  match fuel with
  | O => i
  | S fuel' =>
      match nth_error times_utc i with
      | Some t =>
          if t <? x_start_utc
          then trim_loop fuel' times_utc x_start_utc (S i)
          else i
      | None => i
      end
  end.

Definition trim_index (times_utc : list datetime) (x_start_utc : datetime) : nat :=
  trim_loop (length times_utc) times_utc x_start_utc 0.

(** The step as written.  When [i] is not zero the two slices are stored in
    the session state (lines 125-126) and line 127 then reads
    [st.session_steate], an attribute the [streamlit] module does not have:
    [AttributeError] is raised after the stores.  On [Ok] the pair is the
    local [times_utc], [prices] the rest of the pass goes on with. *)
Definition trim_step (x_start_utc : datetime) (s : session)
  : session * result (list datetime * list price) :=
  let i := trim_index (times s) x_start_utc in
  if (0 <? i)%nat
  then (mkSession (skipn i (times s)) (skipn i (prices s)), Raise AttributeError)
  else (s, Ok (times s, prices s)).

(** *** Y-axis range rule, lines 156-160 *)

Definition Qltb (x y : Q) : bool := negb (Qle_bool y x).

(** [min(prices)] and [max(prices)]: the first extreme item is kept. *)
Definition py_min (l : list price) : result price :=
  match l with
  | [] => Raise ValueError
  | x :: r => Ok (fold_left (fun m y => if Qltb y m then y else m) r x)
  end.

Definition py_max (l : list price) : result price :=
  match l with
  | [] => Raise ValueError
  | x :: r => Ok (fold_left (fun m y => if Qltb m y then y else m) r x)
  end.

Definition tickQ : Q := inject_Z Y_TICK_INTERVAL.

(** [x // Y_TICK_INTERVAL] then [int], the quotient taken exactly; the float
    operation with its rounding is [Binary64.floordiv]. *)
Definition floordiv_tick (x : Q) : Z := Qfloor (x / tickQ).

Definition y_low (ymin : price) : Z :=
  floordiv_tick (ymin - tickQ) * Y_TICK_INTERVAL.

Definition y_high (ymax : price) : Z :=
  floordiv_tick (ymax + tickQ + tickQ - 1) * Y_TICK_INTERVAL.

Definition y_axis_range (prices : list price) : result (Z * Z) :=
  ymin <- py_min prices ;;
  ymax <- py_max prices ;;
  Ok (y_low ymin, y_high ymax).

(** *** One pass of the [if updated and st.session_state.prices] block *)

(** What reaches the figure: the two traces, the axis ranges. *)
Record display : Type := mkDisplay {
  line_x : list datetime;
  line_y : list price;
  marker_x : list datetime;
  marker_y : list price;
  x_range : datetime * datetime;
  y_range : Z * Z
}.

(** [l[-1:]] *)
Definition last_slice {A : Type} (l : list A) : list A :=
  skipn (length l - 1) l.

(** [l[-1]] *)
Definition last_item {A : Type} (l : list A) : result A :=
  match rev l with
  | [] => Raise IndexError
  | x :: _ => Ok x
  end.

Definition render_pass (now_utc : datetime) (s : session)
  : session * result display :=
  match times s with
  | [] => (s, Raise IndexError)
  | first_utc :: _ =>
      let xr := x_axis_range first_utc now_utc in
      let (s', trimmed) := trim_step (fst xr) s in
      (s',
       tp <- trimmed ;;
       _ <- last_item (fst tp) ;;
       _ <- last_item (snd tp) ;;
       yr <- y_axis_range (snd tp) ;;
       Ok (mkDisplay (fst tp) (snd tp)
             (last_slice (fst tp)) (last_slice (snd tp)) xr yr))
  end.

(** *** One iteration of the outer [while True], lines 90-165 *)

Inductive outcome : Type :=
| Idle
| Drawn (d : display)
| Crashed (e : exn).

Definition nonempty {A : Type} (l : list A) : bool :=
  match l with
  | [] => false
  | _ :: _ => true
  end.

Definition tick (now_utc : datetime) (q : tick_queue) (s : session)
  : tick_queue * session * outcome :=
  let '(q', s1, updated) := drain q s false in
  if (updated && nonempty (prices s1))%bool
  then
    let (s2, r) := render_pass now_utc s1 in
    (q', s2, match r with Ok d => Drawn d | Raise e => Crashed e end)
  else (q', s1, Idle).

(** ** bitcoin_current_price.py: [stream_latest_price] *)

(** What [json.loads] returns.  An object is the decoded [dict], one member
    per key. *)
#[local] Unset Elimination Schemes.
Inductive json : Type :=
| JNull
| JBool (b : bool)
| JNumber (x : Q)
| JString (s : string)
| JArray (items : list json)
| JObject (members : list (string * json)).
#[local] Set Elimination Schemes.

(** How the [async for msg in ws] of one connection ends: the iterator is
    exhausted, or an exception is raised while waiting for a frame. *)
Inductive conn_end : Type :=
| Exhausted
| Broken (e : exn).

(** What the network does at one iteration of the outer [while True]:
    [websockets.connect] raises, or the connection opens, delivers [frames]
    and ends. *)
Inductive attempt : Type :=
| Refused (e : exn)
| Opened (frames : list string) (fin : conn_end).

(** What the generator does that can be seen from outside. *)
Inductive action : Type :=
| Connect
| Yield (p : price)
| Sleep (secs : Z).

(** Where the generator is when the script is used up: still in its loop
    with the current [backoff], or left by an exception that went to the
    consumer. *)
Inductive status : Type :=
| Looping (backoff : Z)
| Stopped (e : exn).

(** The [except (...)] clause of lines 30-33. *)
Definition handled (e : exn) : bool :=
  match e with
  | ConnectionClosedError | ConnectionClosedOK | InvalidStatusCode | OSError => true
  | _ => false
  end.

Module Feed.

Section Client.

(** The two library calls of the decode: [json.loads] on a frame ([None]:
    it raises [JSONDecodeError]) and [float] on a [str] ([None]: it raises
    [ValueError]).  Strings that [float] reads as an infinity or NaN, and
    JSON integers beyond the float range, are outside the model. *)
Variable json_loads : string -> option json.
Variable float_of_str : string -> option price.

(** [data["c"]] *)
Definition getitem (data : json) (key : string) : result json :=
  match data with
  | JObject members =>
      match find (fun kv => String.eqb (fst kv) key) members with
      | Some kv => Ok (snd kv)
      | None => Raise KeyError
      end
  | _ => Raise TypeError
  end.

(** [float(v)] *)
Definition py_float (v : json) : result price :=
  match v with
  | JString s =>
      match float_of_str s with
      | Some x => Ok x
      | None => Raise ValueError
      end
  | JNumber x => Ok x
  | JBool b => Ok (if b then 1%Q else 0%Q)
  | JNull | JArray _ | JObject _ => Raise TypeError
  end.

(** Lines 27-28. *)
Definition decode_price (msg : string) : result price :=
  data <- match json_loads msg with
          | Some d => Ok d
          | None => Raise JSONDecodeError
          end ;;
  c <- getitem data "c" ;;
  py_float c.

(** The [async for] of lines 26-29 over one connection: what is yielded,
    and the exception that ends it, if any. *)
Fixpoint receive (frames : list string) (fin : conn_end)
  : list action * option exn :=
  match frames with
  | [] => ([], match fin with Exhausted => None | Broken e => Some e end)
  | msg :: rest =>
      match decode_price msg with
      | Ok p => let (out, r) := receive rest fin in (Yield p :: out, r)
      | Raise e => ([], Some e)
      end
  end.

(** One iteration of the [while True] of lines 19-36. *)
Definition attempt_once (backoff : Z) (a : attempt) : list action * status :=
  let '(backoff1, out, raised) :=
    match a with
    | Refused e => (backoff, [], Some e)
    | Opened frames fin =>
        let (out, r) := receive frames fin in (1, out, r)
    end in
  match raised with
  | None => (Connect :: out, Looping backoff1)
  | Some e =>
      if handled e
      then (Connect :: out ++ [Sleep backoff1], Looping (Z.min (backoff1 * 2) 32))
      else (Connect :: out, Stopped e)
  end.

Fixpoint stream_from (backoff : Z) (script : list attempt)
  : list action * status :=
  match script with
  | [] => ([], Looping backoff)
  | a :: rest =>
      match attempt_once backoff a with
      | (out, Looping backoff') =>
          let (out', st) := stream_from backoff' rest in (out ++ out', st)
      | (out, Stopped e) => (out, Stopped e)
      end
  end.

(** [backoff = 1] on entry, line 17. *)
Definition stream_latest_price (script : list attempt) : list action * status :=
  stream_from 1 script.

End Client.

End Feed.

(** Readings of a run. *)
Definition sleeps (out : list action) : list Z :=
  flat_map (fun a => match a with Sleep n => [n] | _ => [] end) out.

Definition connects (out : list action) : nat :=
  length (filter (fun a => match a with Connect => true | _ => false end) out).

(** A frame reader for examples: it knows three frames and rejects the
    rest, as [json.loads] does for text that is not JSON. *)
Definition dquote : string := String (Ascii.ascii_of_nat 34) EmptyString.

(** The text of a ticker frame whose last price is [100.5]. *)
Definition ticker_frame : string :=
  ("{" ++ dquote ++ "c" ++ dquote ++ ": " ++ dquote ++ "100.5" ++ dquote ++ "}")%string.

Definition demo_loads (msg : string) : option json :=
  if String.eqb msg ticker_frame then Some (JObject [("c"%string, JString "100.5")])
  else if String.eqb msg "{}" then Some (JObject [])
  else if String.eqb msg "[]" then Some (JArray [])
  else None.

Definition demo_float (s : string) : option price :=
  if String.eqb s "100.5" then Some (201 # 2) else None.

(** ** Notions the properties are stated with *)

(** The length of the longest prefix of [ts] whose timestamps are all
    strictly before [x_start]: the walk stops at the first entry that is
    not. *)
Fixpoint stale_prefix_length (ts : list datetime) (x_start : datetime) : nat :=
  match ts with
  | [] => O
  | t :: rest =>
      if t <? x_start then S (stale_prefix_length rest x_start) else O
  end.

(** The y-axis rule as the design document words it:
    [low = floor((min_price - Y_TICK) / Y_TICK) * Y_TICK] and
    [high = ceil((max_price + Y_TICK) / Y_TICK) * Y_TICK]. *)
Definition spec_y_low (min_price : Q) : Z :=
  Qfloor ((min_price - tickQ) / tickQ) * Y_TICK_INTERVAL.

Definition spec_y_high (max_price : Q) : Z :=
  Qceiling ((max_price + tickQ) / tickQ) * Y_TICK_INTERVAL.

(** The session states the render loop can be in between two of its
    operations: it starts empty, appends a drained item, trims at some
    [x_start]; a whole iteration is a [tick]. *)
Inductive reachable : session -> Prop :=
| reach_start : reachable initial_session
| reach_append : forall s o, reachable s -> reachable (append_tick s o)
| reach_trim : forall s x_start,
    reachable s -> reachable (fst (trim_step x_start s))
| reach_tick : forall s now_utc q,
    reachable s -> reachable (snd (fst (tick now_utc q s))).

Section FeedNotions.

Variable json_loads : string -> option json.
Variable float_of_str : string -> option price.

(** The prices a list of frames decodes to, frames that raise left out. *)
Definition decoded_prices (frames : list string) : list price :=
  flat_map (fun msg =>
              match Feed.decode_price json_loads float_of_str msg with
              | Ok p => [p]
              | Raise _ => []
              end) frames.

Definition decodable (msg : string) : Prop :=
  exists p, Feed.decode_price json_loads float_of_str msg = Ok p.

(** A frame that fails JSON decoding, or decodes to an object without the
    last-price member ["c"]. *)
Definition malformed (msg : string) : Prop :=
  json_loads msg = None \/
  exists members,
    json_loads msg = Some (JObject members) /\
    find (fun kv => String.eqb (fst kv) "c") members = None.

(** An attempt whose every exception is one the [except] clause names and
    whose frames all decode. *)
Definition transient (a : attempt) : Prop :=
  match a with
  | Refused e => handled e = true
  | Opened frames fin =>
      Forall decodable frames /\
      match fin with
      | Exhausted => True
      | Broken e => handled e = true
      end
  end.

(** The exception an [async for] that ran through all its frames ends
    with, if any. *)
Definition raised_at_end (fin : conn_end) : option exn :=
  match fin with
  | Exhausted => None
  | Broken e => Some e
  end.

(** Attempts that end in an exception. *)
Definition failed (a : attempt) : bool :=
  match a with
  | Refused _ => true
  | Opened _ Exhausted => false
  | Opened _ (Broken _) => true
  end.

End FeedNotions.

(** The sleep before the reconnect that follows the [i]-th consecutive
    failure, counted from zero: [1, 2, 4, 8, 16, 32, 32, ...]. *)
Definition nth_backoff (i : nat) : Z := Z.min (2 ^ Z.of_nat i) 32.

(** The claim that a run went down the backoff-and-reconnect path: the
    generator is still looping and a sleep was taken. *)
Definition took_reconnect_path (run : list action * status) : Prop :=
  (exists b, snd run = Looping b) /\ sleeps (fst run) <> [].

(** The prices a run yielded, in order. *)
Definition yields (out : list action) : list price :=
  flat_map (fun a => match a with Yield p => [p] | _ => [] end) out.

(** The values [backoff] can take. *)
Definition backoff_values : list Z := [1; 2; 4; 8; 16; 32].

Section FeedScripts.

Variable json_loads : string -> option json.
Variable float_of_str : string -> option price.

(** The prices of the frames a script delivers over its open connections. *)
Definition script_prices (script : list attempt) : list price :=
  flat_map (fun a =>
              match a with
              | Refused _ => []
              | Opened frames _ => decoded_prices json_loads float_of_str frames
              end) script.

(** A connection that opens, delivers frames that decode and whose
    [async for] then ends without an exception. *)
Definition ends_quietly (a : attempt) : Prop :=
  match a with
  | Opened frames Exhausted => Forall (decodable json_loads float_of_str) frames
  | _ => False
  end.

End FeedScripts.

(** ** bitcoin_current_price.py: [print_price_every_second] *)

Module Printer.

(** [price_queue = asyncio.Queue(maxsize = 1)] *)
Definition price_queue_maxsize : nat := 1.
Definition price_queue : Type := @Queue.t price.

(** What [print_price] writes at one iteration, the time stamp, the symbol
    and the two-decimal formatting of the text left out. *)
Inductive line : Type :=
| Waiting
| Shows (p : price).

(** [await price_queue.put(price)]: it returns at once when the queue has
    room; [None] when it has none and the coroutine is suspended until a
    [get] makes room. *)
Definition put (p : price) (q : price_queue) : option price_queue :=
  match Queue.put_nowait price_queue_maxsize p q with
  | Ok q' => Some q'
  | Raise _ => None
  end.

(** The body of [update_price]'s [async for], lines 50-54: one
    [get_nowait], then the [put]. *)
Definition update_price (p : price) (q : price_queue) : option price_queue :=
  let q1 := match Queue.get_nowait q with
            | Ok (_, q') => q'
            | Raise _ => q
            end in
  put p q1.

(** One iteration of [print_price]'s [while True], lines 62-73. *)
Definition print_price (latest_price : option price) (q : price_queue)
  : option price * price_queue * line :=
  let (latest_price', q') :=
    match Queue.get_nowait q with
    | Ok (p, q') => (Some p, q')
    | Raise _ => (latest_price, q)
    end in
  (latest_price', q',
   match latest_price' with
   | None => Waiting
   | Some p => Shows p
   end).

(** What happens on the event loop, in order: the stream yields a price to
    [update_price], or [print_price] wakes up.  Neither body awaits between
    its queue operations unless the [put] finds the queue full, so each is
    one step. *)
Inductive event : Type :=
| Arrives (p : price)
| Prints.

(** [asyncio.gather(update_price(), print_price())] over a schedule; [None]
    when [update_price] is left suspended in its [put]. *)
Fixpoint gather (evs : list event) (latest_price : option price)
  (q : price_queue) : option (list line) :=
  match evs with
  | [] => Some []
  | Arrives p :: rest =>
      match update_price p q with
      | Some q' => gather rest latest_price q'
      | None => None
      end
  | Prints :: rest =>
      let '(latest_price', q', l) := print_price latest_price q in
      match gather rest latest_price' q' with
      | Some ls => Some (l :: ls)
      | None => None
      end
  end.

(** [latest_price = None] and an empty queue on entry, lines 41-42. *)
Definition print_price_every_second (evs : list event) : option (list line) :=
  gather evs None Queue.empty.

(** What a reader expects at each print: the last price that arrived before
    it, or the waiting line when none has. *)
Fixpoint latest_at_prints (evs : list event) (last : option price) : list line :=
  match evs with
  | [] => []
  | Arrives p :: rest => latest_at_prints rest (Some p)
  | Prints :: rest =>
      match last with
      | None => Waiting
      | Some p => Shows p
      end :: latest_at_prints rest last
  end.

End Printer.

(** ** Binary64 arithmetic on finite values, as lines 158-159 use it *)

(** A finite Python [float] is the rational it denotes; each arithmetic
    operation returns the exact result rounded to the nearest binary64
    value, ties to even (53 significant bits, last place never below
    [2 ^ -1074]).  Infinities and NaN are not values of this model, and
    results stay below the overflow threshold for the operands the range
    rule meets (a price plus or minus a few hundred). *)
Module Binary64.

Definition pow2 (z : Z) : Q := ((2 # 1) ^ z)%Q.

(** The exponent [e] with [2 ^ e <= |x| < 2 ^ (e + 1)], for [x] not zero. *)
Definition ilog2 (x : Q) : Z :=
  if Qle_bool 1%Q (Qabs x)
  then Z.log2 (Qfloor (Qabs x))
  else - Z.log2_up (Qceiling (/ Qabs x)).

(** The nearest integer, ties to the even one. *)
Definition rne (x : Q) : Z :=
  let f := Qfloor x in
  match ((x - inject_Z f) ?= (1 # 2))%Q with
  | Lt => f
  | Gt => f + 1
  | Eq => if Z.even f then f else f + 1
  end.

Definition round (x : Q) : Q :=
  if Qeq_bool x 0%Q then 0%Q
  else
    let q := Z.max (ilog2 x - 52) (-1074) in
    (inject_Z (rne (x / pow2 q)) * pow2 q)%Q.

Definition add (x y : Q) : Q := round (x + y)%Q.
Definition sub (x y : Q) : Q := round (x - y)%Q.
Definition div (x y : Q) : Q := round (x / y)%Q.

(** Rounding toward zero: C's [trunc], Python's [int] of a float. *)
Definition trunc (x : Q) : Z :=
  if Qle_bool 0%Q x then Qfloor x else Qceiling x.

(** C's [fmod]: the remainder with the sign of [x]; always exact. *)
Definition fmod (x y : Q) : Q := (x - inject_Z (trunc (x / y)) * y)%Q.

(** [vx // wx] on floats, as CPython's [float_floor_div] computes it: the
    quotient of [vx - mod] by [wx], lowered by one when the remainder and
    the divisor differ in sign, then snapped to the integer below it. *)
Definition lower_quotient (md wx dv : Q) : Q :=
  if (negb (Qeq_bool md 0%Q) && xorb (Qltb wx 0%Q) (Qltb md 0%Q))%bool
  then sub dv 1%Q
  else dv.

Definition snap_quotient (dv : Q) : Q :=
  if Qeq_bool dv 0%Q then 0%Q
  else
    let fd := inject_Z (Qfloor dv) in
    if Qltb (1 # 2) (sub dv fd) then add fd 1%Q else fd.

Definition floordiv (vx wx : Q) : Q :=
  let md := fmod vx wx in
  let dv := div (sub vx md) wx in
  snap_quotient (lower_quotient md wx dv).

Definition int (x : Q) : Z := trunc x.

End Binary64.

(** Lines 158 and 159 with the rounding of each float operation.
    [Y_TICK_INTERVAL] and [1] are Python ints, converted exactly. *)
Definition y_low_float (ymin : price) : Z :=
  Binary64.int (Binary64.floordiv (Binary64.sub ymin tickQ) tickQ)
  * Y_TICK_INTERVAL.

Definition y_high_float (ymax : price) : Z :=
  Binary64.int
    (Binary64.floordiv
       (Binary64.sub (Binary64.add (Binary64.add ymax tickQ) tickQ) 1%Q)
       tickQ)
  * Y_TICK_INTERVAL.

Definition y_axis_range_float (prices : list price) : result (Z * Z) :=
  ymin <- py_min prices ;;
  ymax <- py_max prices ;;
  Ok (y_low_float ymin, y_high_float ymax).

(** The binary64 values on which lines 158-159 round nothing: [m / 2 ^ k]
    with [|m| + 500 * 2 ^ k < 2 ^ 53], so that the price and the price
    shifted by up to 500 either way all have 53-bit numerators over
    [2 ^ k].  Every whole number of magnitude below [2 ^ 53 - 500] is one
    ([k = 0]); so are 100.5 and the float nearest to 114251.37. *)
Definition exact_for_ticks (p : price) : Prop :=
  exists (m : Z) (k : Z),
    0 <= k
    /\ (p == inject_Z m * Binary64.pow2 (- k)%Z)%Q
    /\ Z.abs m + 500 * 2 ^ k < 2 ^ 53.

(** The remainder of a price modulo the tick, in [0, Y_TICK_INTERVAL). *)
Definition tick_remainder (p : price) : Q :=
  (p - inject_Z (Qfloor (p / tickQ)) * tickQ)%Q.

(** * Properties *)

(** ** Lists: slices and the trim loop *)

Lemma skipn_same_length :
  forall (A B : Type) (n : nat) (l : list A) (l' : list B),
    length l = length l' -> length (skipn n l) = length (skipn n l').
Proof.
  intros A B n l l' H. now rewrite !length_skipn, H.
Qed.

(** With enough fuel the index loop stops where the walk along the list
    stops. *)
Lemma trim_loop_walk :
  forall (fuel : nat) (seen ts : list datetime) (x_start : datetime),
    (length ts <= fuel)%nat ->
    trim_loop fuel (seen ++ ts) x_start (length seen)
    = (length seen + stale_prefix_length ts x_start)%nat.
Proof.
  induction fuel as [|fuel IH]; intros seen ts x_start Hfuel.
  - destruct ts as [|t ts]; simpl in *; [lia | lia].
  - destruct ts as [|t ts]; simpl.
    + rewrite app_nil_r.
      replace (nth_error seen (length seen)) with (@None datetime)
        by (symmetry; apply nth_error_None; lia).
      lia.
    + rewrite nth_error_app2 by lia.
      rewrite Nat.sub_diag. simpl.
      destruct (t <? x_start) eqn:Ht; [|lia].
      replace (seen ++ t :: ts) with ((seen ++ [t]) ++ ts)
        by (now rewrite <- app_assoc).
      replace (S (length seen)) with (length (seen ++ [t]))
        by (rewrite length_app; simpl; lia).
      rewrite IH by (simpl in Hfuel; lia).
      rewrite length_app. simpl. lia.
Qed.

Lemma trim_index_is_stale_prefix :
  forall (ts : list datetime) (x_start : datetime),
    trim_index ts x_start = stale_prefix_length ts x_start.
Proof.
  intros ts x_start. unfold trim_index.
  apply (trim_loop_walk (length ts) [] ts x_start). lia.
Qed.

Lemma stale_prefix_all_stale :
  forall (ts : list datetime) (x_start : datetime),
    Forall (fun t => t < x_start)
           (firstn (stale_prefix_length ts x_start) ts).
Proof.
  induction ts as [|t ts IH]; intros x_start; simpl.
  - constructor.
  - destruct (t <? x_start) eqn:Ht; simpl.
    + constructor; [now apply Z.ltb_lt | apply IH].
    + constructor.
Qed.

Lemma stale_prefix_stops_at_fresh :
  forall (ts : list datetime) (x_start t : datetime) (rest : list datetime),
    skipn (stale_prefix_length ts x_start) ts = t :: rest -> x_start <= t.
Proof.
  induction ts as [|t0 ts IH]; intros x_start t rest; simpl.
  - discriminate.
  - destruct (t0 <? x_start) eqn:Ht; simpl.
    + apply IH.
    + intros H. injection H as -> _. now apply Z.ltb_ge.
Qed.

Lemma stale_prefix_longest :
  forall (ts : list datetime) (x_start : datetime) (m : nat),
    (m <= length ts)%nat ->
    Forall (fun t => t < x_start) (firstn m ts) ->
    (m <= stale_prefix_length ts x_start)%nat.
Proof.
  induction ts as [|t ts IH]; intros x_start m Hm Hall; simpl in *.
  - lia.
  - destruct m as [|m]; [lia|].
    simpl in Hall. inversion Hall as [|? ? Ht Hrest]; subst.
    apply Z.ltb_lt in Ht. rewrite Ht.
    apply le_n_S, IH; [lia | assumption].
Qed.

(** The session state the trim step leaves, whichever way it ends. *)
Lemma trim_step_state :
  forall (x_start : datetime) (s : session),
    fst (trim_step x_start s)
    = mkSession (skipn (stale_prefix_length (times s) x_start) (times s))
                (skipn (stale_prefix_length (times s) x_start) (prices s)).
Proof.
  intros x_start s. unfold trim_step.
  rewrite trim_index_is_stale_prefix.
  destruct (stale_prefix_length (times s) x_start) as [|n]; simpl.
  - now destruct s.
  - reflexivity.
Qed.

(** Line 127: a trim that removes something ends in [AttributeError],
    the two lists being already stored. *)
Lemma trim_step_raises_after_store :
  forall (x_start : datetime) (s : session),
    (0 < stale_prefix_length (times s) x_start)%nat ->
    snd (trim_step x_start s) = Raise AttributeError.
Proof.
  intros x_start s H. unfold trim_step.
  rewrite trim_index_is_stale_prefix.
  apply Nat.ltb_lt in H. now rewrite H.
Qed.

Lemma trim_step_nothing_stale :
  forall (x_start : datetime) (s : session),
    stale_prefix_length (times s) x_start = O ->
    trim_step x_start s = (s, Ok (times s, prices s)).
Proof.
  intros x_start s H. unfold trim_step.
  now rewrite trim_index_is_stale_prefix, H.
Qed.

Lemma render_pass_state :
  forall (now_utc first : datetime) (later : list datetime) (s : session),
    times s = first :: later ->
    fst (render_pass now_utc s)
    = fst (trim_step (fst (x_axis_range first now_utc)) s).
Proof.
  intros now_utc first later s H. unfold render_pass. rewrite H.
  now destruct (trim_step (fst (x_axis_range first now_utc)) s).
Qed.

(** ** The x-axis window *)

(** C1. For a non-empty History whose first timestamp is [first] (the
    earliest one when timestamps do not decrease) and any instant [now]:
    while [now - first < WINDOW] the computed x-range is
    [first, first + WINDOW], and the pass draws with it; otherwise the
    computed x-range is [now - WINDOW, now].  Any display the pass hands
    over carries the computed range. *)
Theorem x_range_fill_then_slide :
  forall (s : session) (first : datetime) (later : list datetime)
         (now_utc : datetime),
    times s = first :: later ->
    (StronglySorted Z.le (times s) -> Forall (fun t => first <= t) (times s))
    /\ (now_utc - first < window ->
        x_axis_range first now_utc = (first, first + window)
        /\ (prices s <> [] ->
            exists d, render_pass now_utc s = (s, Ok d)
                      /\ x_range d = (first, first + window)))
    /\ (~ now_utc - first < window ->
        x_axis_range first now_utc = (now_utc - window, now_utc))
    /\ (forall s' d, render_pass now_utc s = (s', Ok d) ->
                     x_range d = x_axis_range first now_utc).
Proof.
  intros s first later now_utc Hs. repeat split.
  - rewrite Hs. intros Hsorted. inversion Hsorted; subst.
    constructor; [lia | assumption].
  - unfold x_axis_range. apply Z.ltb_lt in H. now rewrite H.
  - intros Hp. unfold render_pass. rewrite Hs.
    assert (Hx : x_axis_range first now_utc = (first, first + window)).
    { unfold x_axis_range. apply Z.ltb_lt in H. now rewrite H. }
    rewrite Hx. simpl fst.
    rewrite trim_step_nothing_stale
      by (rewrite Hs; simpl; now rewrite Z.ltb_irrefl).
    simpl. rewrite Hs.
    destruct (prices s) as [|p ps] eqn:Hps; [contradiction|].
    unfold last_item.
    destruct (rev (first :: later)) eqn:Hr1.
    { apply (f_equal (@length _)) in Hr1. rewrite length_rev in Hr1. discriminate. }
    destruct (rev (p :: ps)) eqn:Hr2.
    { apply (f_equal (@length _)) in Hr2. rewrite length_rev in Hr2. discriminate. }
    simpl. eexists. split; reflexivity.
  - intros H. unfold x_axis_range.
    apply Z.ltb_nlt in H. now rewrite H.
  - intros s' d. unfold render_pass. rewrite Hs.
    destruct (trim_step (fst (x_axis_range first now_utc)) s) as [s1 [tp|e]];
      simpl; [|discriminate].
    destruct (last_item (fst tp)); simpl; [|discriminate].
    destruct (last_item (snd tp)); simpl; [|discriminate].
    destruct (y_axis_range (snd tp)); simpl; [|discriminate].
    intros H. injection H as _ <-. reflexivity.
Qed.

Lemma x_range_fill_then_slide_witness :
  x_axis_range 3 5 = (3, 3 + window)
  /\ x_axis_range 3 (window + 10) = (10, window + 10).
Proof.
  pose proof (x_range_fill_then_slide (mkSession [3; 4] [1%Q; 2%Q]) 3 [4] 5
                eq_refl) as [_ [Hfill _]].
  pose proof (x_range_fill_then_slide (mkSession [3; 4] [1%Q; 2%Q]) 3 [4]
                (window + 10) eq_refl) as [_ [_ [Hslide _]]].
  split.
  - apply Hfill. vm_compute. reflexivity.
  - apply Hslide. vm_compute. discriminate.
Defined.

(** ** The trim step *)

(** C3. For every History and every [x_start], the trim step leaves in the
    session state the History without its longest prefix of timestamps
    strictly before [x_start] (prices cut at the same index): everything
    removed is stale, no longer prefix is all stale, and the first timestamp
    kept, if any, is at least [x_start].  The [x_start] is the one the same
    pass computed. *)
Theorem trim_removes_longest_stale_prefix :
  forall (s : session) (x_start : datetime),
    let s' := fst (trim_step x_start s) in
    let n := trim_index (times s) x_start in
    times s = firstn n (times s) ++ times s'
    /\ prices s' = skipn n (prices s)
    /\ Forall (fun t => t < x_start) (firstn n (times s))
    /\ (forall m, (m <= length (times s))%nat ->
                  Forall (fun t => t < x_start) (firstn m (times s)) ->
                  (m <= n)%nat)
    /\ (forall t rest, times s' = t :: rest -> x_start <= t)
    /\ (forall now_utc first later,
           times s = first :: later ->
           x_start = fst (x_axis_range first now_utc) ->
           fst (render_pass now_utc s) = s').
Proof.
  intros s x_start. cbv zeta.
  rewrite trim_step_state, trim_index_is_stale_prefix. simpl.
  repeat split.
  - now rewrite firstn_skipn.
  - apply stale_prefix_all_stale.
  - apply stale_prefix_longest.
  - apply stale_prefix_stops_at_fresh.
  - intros now_utc first later Hs ->.
    rewrite (render_pass_state now_utc first later s Hs).
    apply trim_step_state.
Qed.

Lemma trim_removes_longest_stale_prefix_witness :
  times (fst (trim_step 10 (mkSession [1; 5; 10; 3; 20]
                                      [1%Q; 2%Q; 3%Q; 4%Q; 5%Q])))
  = [10; 3; 20]
  /\ 10 <= 10.
Proof.
  pose proof (trim_removes_longest_stale_prefix
                (mkSession [1; 5; 10; 3; 20] [1%Q; 2%Q; 3%Q; 4%Q; 5%Q]) 10)
    as [_ [_ [_ [_ [Hfresh _]]]]].
  split.
  - reflexivity.
  - apply (Hfresh 10 [3; 20]). reflexivity.
Defined.

(** ** The latest-value slot *)

Lemma discard_all_empties :
  forall (A : Type) (q : @Queue.t A), Queue.discard_all q = [].
Proof.
  induction q as [|x q IH]; simpl; [reflexivity | exact IH].
Qed.

Lemma put_latest_overwrites :
  forall (ts : datetime) (p : price) (q : tick_queue),
    put_latest ts p q = [(ts, p)].
Proof.
  intros ts p q. unfold put_latest.
  rewrite discard_all_empties. reflexivity.
Qed.

Lemma put_all_keeps_last :
  forall (earlier : list tick_item) (o : tick_item) (q : tick_queue),
    put_all (earlier ++ [o]) q = [o].
Proof.
  intros earlier o q. unfold put_all.
  rewrite fold_left_app. simpl.
  rewrite put_latest_overwrites. now destruct o.
Qed.

(** C5. After [put(o1), ..., put(on)] with no take in between, from any
    state of the slot, a take returns [on] and leaves the slot empty; with
    no put at all a take on the empty slot returns nothing.  Hence however
    many observations the feed delivered since the last drain, the drain of
    the next render tick appends exactly the last one to History (one more
    timestamp, one more price), and the drain after that, with nothing new
    delivered, appends nothing: the earlier ones are never retried. *)
Theorem latest_wins :
  forall (q : tick_queue) (s : session) (earlier : list tick_item)
         (o : tick_item),
    take (put_all (earlier ++ [o]) q) = (Some o, [])
    /\ take (put_all [] Queue.empty) = (None, [])
    /\ drain (put_all (earlier ++ [o]) q) s false = ([], append_tick s o, true)
    /\ times (append_tick s o) = times s ++ [fst o]
    /\ prices (append_tick s o) = prices s ++ [snd o]
    /\ drain [] (append_tick s o) false = ([], append_tick s o, false).
Proof.
  intros q s earlier o.
  rewrite put_all_keeps_last. repeat split.
Qed.

(** ** The lists behind History *)

Lemma drain_appends_pairwise :
  forall (q : tick_queue) (s : session) (updated : bool),
    length (times s) = length (prices s) ->
    length (times (snd (fst (drain q s updated))))
    = length (prices (snd (fst (drain q s updated)))).
Proof.
  induction q as [|o q IH]; intros s updated H; simpl.
  - exact H.
  - apply IH. simpl. rewrite !length_app. simpl. lia.
Qed.

Lemma drain_reachable :
  forall (q : tick_queue) (s : session) (updated : bool),
    reachable s -> reachable (snd (fst (drain q s updated))).
Proof.
  induction q as [|o q IH]; intros s updated H; simpl.
  - exact H.
  - apply IH. now apply reach_append.
Qed.

Lemma trim_step_cuts_pairwise :
  forall (x_start : datetime) (s : session),
    length (times s) = length (prices s) ->
    length (times (fst (trim_step x_start s)))
    = length (prices (fst (trim_step x_start s))).
Proof.
  intros x_start s H. rewrite trim_step_state. simpl.
  now apply skipn_same_length.
Qed.

Lemma render_pass_cuts_pairwise :
  forall (now_utc : datetime) (s : session),
    length (times s) = length (prices s) ->
    length (times (fst (render_pass now_utc s)))
    = length (prices (fst (render_pass now_utc s))).
Proof.
  intros now_utc s H.
  case_eq (times s); [intros Hs | intros first later Hs].
  - unfold render_pass. rewrite Hs. simpl. exact H.
  - rewrite (render_pass_state now_utc first later s Hs).
    now apply trim_step_cuts_pairwise.
Qed.

Lemma tick_state :
  forall (now_utc : datetime) (q : tick_queue) (s : session),
    let s1 := snd (fst (drain q s false)) in
    snd (fst (tick now_utc q s)) = s1
    \/ snd (fst (tick now_utc q s)) = fst (render_pass now_utc s1).
Proof.
  intros now_utc q s. unfold tick.
  destruct (drain q s false) as [[q' s1] updated]. simpl.
  destruct (updated && nonempty (prices s1))%bool.
  - right. now destruct (render_pass now_utc s1).
  - left. reflexivity.
Qed.

(** C10. In every state the render loop can reach (from the empty lists, by
    appending a drained observation, by trimming, by whole iterations
    whether they draw, idle or raise) the two lists behind History have the
    same length. *)
Theorem times_prices_same_length :
  forall s : session,
    reachable s -> length (times s) = length (prices s).
Proof.
  intros s H. induction H as [|s o _ IH|s x_start _ IH|s now_utc q _ IH].
  - reflexivity.
  - simpl. rewrite !length_app. simpl. lia.
  - now apply trim_step_cuts_pairwise.
  - destruct (tick_state now_utc q s) as [-> | ->].
    + now apply drain_appends_pairwise.
    + apply render_pass_cuts_pairwise. now apply drain_appends_pairwise.
Qed.

Lemma times_prices_same_length_witness :
  length (times (snd (fst (tick (window + 9) [(window + 8, 7%Q)]
                             (mkSession [0; 20] [1%Q; 2%Q])))))
  = length (prices (snd (fst (tick (window + 9) [(window + 8, 7%Q)]
                                (mkSession [0; 20] [1%Q; 2%Q]))))).
Proof.
  apply times_prices_same_length.
  apply reach_tick.
  apply (reach_append (mkSession [0] [1%Q]) (20, 2%Q)).
  apply (reach_append initial_session (0, 1%Q)).
  apply reach_start.
Defined.

(** ** The y-axis range *)

Lemma floordiv_tick_integer :
  forall z : Z, floordiv_tick (inject_Z z) = z / Y_TICK_INTERVAL.
Proof.
  intros z. unfold floordiv_tick, tickQ. symmetry. apply Zdiv_Qdiv.
Qed.

Lemma floordiv_tick_eq :
  forall x y : Q, (x == y)%Q -> floordiv_tick x = floordiv_tick y.
Proof.
  intros x y H. unfold floordiv_tick. now rewrite H.
Qed.

Lemma y_low_integer :
  forall (p : price) (z : Z),
    (p == inject_Z z)%Q ->
    y_low p = (z - Y_TICK_INTERVAL) / Y_TICK_INTERVAL * Y_TICK_INTERVAL.
Proof.
  intros p z H. unfold y_low.
  rewrite <- floordiv_tick_integer. f_equal.
  apply floordiv_tick_eq. rewrite H. unfold tickQ.
  unfold Z.sub. rewrite inject_Z_plus, inject_Z_opp. reflexivity.
Qed.

Lemma y_high_integer :
  forall (p : price) (z : Z),
    (p == inject_Z z)%Q ->
    y_high p
    = (z + Y_TICK_INTERVAL + Y_TICK_INTERVAL - 1) / Y_TICK_INTERVAL
      * Y_TICK_INTERVAL.
Proof.
  intros p z H. unfold y_high.
  rewrite <- floordiv_tick_integer. f_equal.
  apply floordiv_tick_eq. rewrite H. unfold tickQ.
  unfold Z.sub. rewrite !inject_Z_plus, inject_Z_opp. reflexivity.
Qed.

Lemma spec_y_high_integer :
  forall (p : price) (z : Z),
    (p == inject_Z z)%Q ->
    spec_y_high p
    = - ((- (z + Y_TICK_INTERVAL)) / Y_TICK_INTERVAL) * Y_TICK_INTERVAL.
Proof.
  intros p z H. unfold spec_y_high, Qceiling. f_equal. f_equal.
  rewrite (Zdiv_Qdiv (- (z + Y_TICK_INTERVAL)) Y_TICK_INTERVAL).
  apply Qfloor_comp. rewrite H. unfold tickQ.
  rewrite inject_Z_opp, inject_Z_plus.
  unfold Qdiv. ring.
Qed.

(** On whole-number prices the program's range is the documented one. *)
Lemma y_range_integer_prices :
  forall (p : price) (z : Z),
    (p == inject_Z z)%Q ->
    y_low p = spec_y_low p /\ y_high p = spec_y_high p.
Proof.
  intros p z H. split; [reflexivity|].
  rewrite (y_high_integer p z H), (spec_y_high_integer p z H).
  f_equal. unfold Y_TICK_INTERVAL.
  Z.to_euclidean_division_equations. lia.
Qed.

(** The bottom margin is a full tick for every price. *)
Lemma y_low_leaves_a_tick :
  forall ymin : price, (inject_Z (y_low ymin) <= ymin - tickQ)%Q.
Proof.
  intros ymin. unfold y_low, floordiv_tick.
  rewrite inject_Z_mult. fold tickQ.
  assert (Ht : (0 < tickQ)%Q) by reflexivity.
  apply Qle_trans with ((ymin - tickQ) / tickQ * tickQ)%Q.
  - apply Qmult_le_compat_r; [apply Qfloor_le | now apply Qlt_le_weak].
  - apply Qle_lteq. right. field. intros Hz. rewrite Hz in Ht. discriminate.
Qed.

(** The top margin is more than a tick less one unit for every price. *)
Lemma y_high_leaves_almost_a_tick :
  forall ymax : price, (ymax + tickQ - 1 < inject_Z (y_high ymax))%Q.
Proof.
  intros ymax. unfold y_high, floordiv_tick.
  rewrite inject_Z_mult. fold tickQ.
  assert (Ht : (0 < tickQ)%Q) by reflexivity.
  set (x := ((ymax + tickQ + tickQ - 1) / tickQ)%Q).
  assert (Hx : (x - 1 < inject_Z (Qfloor x))%Q).
  { pose proof (Qlt_floor x) as H. rewrite inject_Z_plus in H.
    apply Qplus_lt_l with (z := 1%Q).
    setoid_replace (x - 1 + 1)%Q with x by ring.
    exact H. }
  apply Qle_lt_trans with ((x - 1) * tickQ)%Q.
  - apply Qle_lteq. right. unfold x. field.
    intros Hz. rewrite Hz in Ht. discriminate.
  - now apply Qmult_lt_compat_r.
Qed.

(** C4. Evaluation at a price with a fractional part: for the single price
    250.5 the program computes [high = 500], where the documented
    [ceil((max_price + Y_TICK) / Y_TICK) * Y_TICK] is 750; [low] agrees with
    the documented floor.  The same happens at 114250.12. *)
Theorem y_high_is_not_the_ceiling_on_fractions :
  y_axis_range [501 # 2] = Ok (0, 500)
  /\ spec_y_low (501 # 2) = 0
  /\ spec_y_high (501 # 2) = 750
  /\ y_axis_range [11425012 # 100] = Ok (114000, 114500)
  /\ spec_y_high (11425012 # 100) = 114750.
Proof.
  repeat split; vm_compute; reflexivity.
Qed.

(** C6. Evaluation of the margin: for prices 100 and 400 the range is
    [-250, 750]; for the single price 250.5 it is [0, 500], and 500 is
    below 250.5 + 250, so the margin above the data is less than one
    tick. *)
Theorem y_margin_above_is_short_on_fractions :
  y_axis_range [100 # 1; 400 # 1] = Ok (-250, 750)
  /\ y_axis_range [501 # 2] = Ok (0, 500)
  /\ (inject_Z 500 < (501 # 2) + tickQ)%Q
  /\ (inject_Z 0 <= (501 # 2) - tickQ)%Q.
Proof.
  repeat split; vm_compute; try reflexivity; discriminate.
Qed.

(** C9, as stated, fails: the single price 100 gives [low = -250] and
    [high = 500], three ticks apart, with the exact quotients and with the
    rounded float operations alike. *)
Lemma single_point_span_is_not_always_two_ticks :
  ~ (forall (p : price) (low high : Z),
        y_axis_range [p] = Ok (low, high) ->
        low = high - 2 * Y_TICK_INTERVAL)
  /\ ~ (forall (p : price) (low high : Z),
          y_axis_range_float [p] = Ok (low, high) ->
          low = high - 2 * Y_TICK_INTERVAL).
Proof.
  split; intros H.
  - specialize (H (100 # 1) (-250) 500 eq_refl).
    vm_compute in H. discriminate.
  - assert (E : y_axis_range_float [100 # 1] = Ok (-250, 500))
      by (vm_compute; reflexivity).
    specialize (H (100 # 1) (-250) 500 E). clear E.
    vm_compute in H. discriminate H.
Qed.

(** ** The feed client *)

Lemma sleeps_app :
  forall out out' : list action, sleeps (out ++ out') = sleeps out ++ sleeps out'.
Proof. intros. unfold sleeps. apply flat_map_app. Qed.

Lemma connects_app :
  forall out out' : list action,
    connects (out ++ out') = (connects out + connects out')%nat.
Proof. intros. unfold connects. now rewrite filter_app, length_app. Qed.

Lemma sleeps_of_yields :
  forall ps : list price, sleeps (map Yield ps) = [].
Proof. induction ps as [|p ps IH]; simpl; [reflexivity | exact IH]. Qed.

Lemma connects_of_yields :
  forall ps : list price, connects (map Yield ps) = O.
Proof. induction ps as [|p ps IH]; [reflexivity | exact IH]. Qed.

Lemma sleeps_after_connect :
  forall out : list action, sleeps (Connect :: out) = sleeps out.
Proof. reflexivity. Qed.

Lemma connects_after_connect :
  forall out : list action, connects (Connect :: out) = S (connects out).
Proof. reflexivity. Qed.

Lemma nth_backoff_doubles :
  forall k : nat, Z.min (nth_backoff k * 2) 32 = nth_backoff (S k).
Proof.
  intros k. unfold nth_backoff.
  rewrite Nat2Z.inj_succ, Z.pow_succ_r by lia.
  assert (0 < 2 ^ Z.of_nat k) by (apply Z.pow_pos_nonneg; lia).
  lia.
Qed.

Section FeedFacts.

Variable json_loads : string -> option json.
Variable float_of_str : string -> option price.

#[local] Abbreviation decode := (Feed.decode_price json_loads float_of_str).
#[local] Abbreviation recv := (Feed.receive json_loads float_of_str).
#[local] Abbreviation once := (Feed.attempt_once json_loads float_of_str).
#[local] Abbreviation run_from := (Feed.stream_from json_loads float_of_str).
#[local] Abbreviation good_frame := (decodable json_loads float_of_str).
#[local] Abbreviation prices_of := (decoded_prices json_loads float_of_str).
#[local] Abbreviation benign := (transient json_loads float_of_str).

Lemma receive_decodable :
  forall (frames : list string) (fin : conn_end),
    Forall good_frame frames ->
    recv frames fin = (map Yield (prices_of frames), raised_at_end fin).
Proof.
  induction frames as [|msg frames IH]; intros fin H.
  - now destruct fin.
  - inversion H as [|? ? [p Hp] Hrest]; subst.
    simpl. unfold decoded_prices. simpl.
    rewrite Hp, (IH fin Hrest). reflexivity.
Qed.

Lemma receive_stops_at_raise :
  forall (good : list string) (msg : string) (later : list string)
         (fin : conn_end) (e : exn),
    Forall good_frame good ->
    decode msg = Raise e ->
    recv (good ++ msg :: later) fin
    = (map Yield (prices_of good), Some e).
Proof.
  induction good as [|g good IH]; intros msg later fin e Hgood Hmsg.
  - simpl. now rewrite Hmsg.
  - inversion Hgood as [|? ? [p Hp] Hrest]; subst.
    simpl. unfold decoded_prices. simpl.
    rewrite Hp, (IH msg later fin e Hrest Hmsg). reflexivity.
Qed.

Lemma malformed_raises :
  forall msg : string,
    malformed json_loads msg ->
    decode msg = Raise JSONDecodeError
    \/ decode msg = Raise KeyError.
Proof.
  intros msg [Hnone | [members [Hobj Hfind]]]; unfold Feed.decode_price.
  - left. now rewrite Hnone.
  - right. rewrite Hobj. simpl. now rewrite Hfind.
Qed.

Lemma attempt_refused :
  forall (b : Z) (e : exn),
    handled e = true ->
    once b (Refused e)
    = ([Connect; Sleep b], Looping (Z.min (b * 2) 32)).
Proof.
  intros b e H. unfold Feed.attempt_once. now rewrite H.
Qed.

Lemma attempt_opened :
  forall (b : Z) (frames : list string) (fin : conn_end),
    Forall good_frame frames ->
    match fin with Exhausted => True | Broken e => handled e = true end ->
    once b (Opened frames fin)
    = match fin with
      | Exhausted => (Connect :: map Yield (prices_of frames), Looping 1)
      | Broken _ =>
          (Connect :: map Yield (prices_of frames) ++ [Sleep 1], Looping 2)
      end.
Proof.
  intros b frames fin Hframes Hfin. unfold Feed.attempt_once.
  rewrite (receive_decodable frames fin Hframes).
  destruct fin as [|e]; simpl; [reflexivity | now rewrite Hfin].
Qed.

Lemma attempt_connects_first :
  forall (b : Z) (a : attempt),
    exists out, fst (once b a) = Connect :: out.
Proof.
  intros b a. unfold Feed.attempt_once.
  destruct a as [e | frames fin].
  - destruct (handled e); eexists; reflexivity.
  - destruct (recv frames fin) as [out [e|]].
    + destruct (handled e); eexists; reflexivity.
    + eexists; reflexivity.
Qed.

Lemma stream_from_cons_looping :
  forall (b b' : Z) (a : attempt) (rest : list attempt) (out : list action),
    once b a = (out, Looping b') ->
    run_from b (a :: rest)
    = (out ++ fst (run_from b' rest), snd (run_from b' rest)).
Proof.
  intros b b' a rest out H. simpl. rewrite H.
  now destruct (run_from b' rest).
Qed.

Lemma refusals_back_off :
  forall (es : list exn) (k : nat),
    Forall (fun e => handled e = true) es ->
    sleeps (fst (run_from (nth_backoff k) (map Refused es)))
    = map nth_backoff (seq k (length es)).
Proof.
  induction es as [|e es IH]; intros k H.
  - reflexivity.
  - inversion H as [|? ? He Hes]; subst.
    cbn [map length seq].
    rewrite (stream_from_cons_looping _ _ _ _ _ (attempt_refused _ e He)).
    cbn [fst]. rewrite sleeps_app, nth_backoff_doubles, (IH (S k) Hes).
    reflexivity.
Qed.

(** C2. From the start of the generator, [N] connection attempts in a row
    that fail with exceptions the handler names are followed by sleeps of
    1, 2, 4, 8, 16, 32, 32, 32, ... seconds (the [i]-th is
    [min (2 ^ i) 32]).  A connection that opens resets the backoff, whatever
    it was: if it then breaks, that failure sleeps 1 second and the
    failures after it 2, 4, ...; if it ends without exception, the failures
    after it sleep 1, 2, 4, .... *)
Theorem backoff_sequence :
  forall (es : list exn) (b : Z) (frames : list string) (fin : conn_end),
    Forall (fun e => handled e = true) es ->
    Forall good_frame frames ->
    match fin with Exhausted => True | Broken e => handled e = true end ->
    sleeps (fst (Feed.stream_latest_price json_loads float_of_str
                   (map Refused es)))
    = map nth_backoff (seq 0 (length es))
    /\ sleeps (fst (run_from b (Opened frames fin :: map Refused es)))
       = map nth_backoff
           (seq 0 ((if failed (Opened frames fin) then 1 else 0)
                   + length es))
    /\ map nth_backoff (seq 0 8) = [1; 2; 4; 8; 16; 32; 32; 32].
Proof.
  intros es b frames fin Hes Hframes Hfin. repeat split.
  - apply (refusals_back_off es 0 Hes).
  - destruct fin as [|e].
    + rewrite (stream_from_cons_looping _ _ _ _ _
                 (attempt_opened b frames Exhausted Hframes I)).
      cbn [fst failed Nat.add].
      rewrite sleeps_app, sleeps_after_connect, sleeps_of_yields.
      apply (refusals_back_off es 0 Hes).
    + rewrite (stream_from_cons_looping _ _ _ _ _
                 (attempt_opened b frames (Broken e) Hframes Hfin)).
      cbn [fst failed Nat.add seq map].
      rewrite sleeps_app, sleeps_after_connect, sleeps_app, sleeps_of_yields.
      cbn [sleeps flat_map app].
      f_equal. apply (refusals_back_off es 1 Hes).
Qed.

(** C8. Whatever the network does, as long as each exception it raises at
    connect or while receiving is a connection-closed (error or normal), an
    invalid status or an OS error (and the frames decode): no exception
    reaches the consumer, the generator is still in its loop after the whole
    script, each failure is followed by one sleep, and every attempt of the
    script is made, so after each failure the connection is opened again.
    For each of the four exceptions: a refused connect sleeps [backoff] and
    the next thing the generator does is connect; a broken open connection
    sleeps 1 second. *)
Theorem transient_failures_never_reach_the_consumer :
  forall (script : list attempt) (b : Z),
    Forall benign script ->
    (exists b', snd (run_from b script) = Looping b')
    /\ connects (fst (run_from b script)) = length script
    /\ length (sleeps (fst (run_from b script)))
       = length (filter failed script)
    /\ (forall e,
           In e [ConnectionClosedError; ConnectionClosedOK;
                 InvalidStatusCode; OSError] ->
           (forall a rest, exists out,
               fst (run_from b (Refused e :: a :: rest))
               = Connect :: Sleep b :: Connect :: out)
           /\ (forall frames, Forall good_frame frames ->
                 once b (Opened frames (Broken e))
                 = (Connect :: map Yield (prices_of frames) ++ [Sleep 1],
                    Looping 2))).
Proof.
  intros script b Hscript.
  assert (Hrun : (exists b', snd (run_from b script) = Looping b')
                 /\ connects (fst (run_from b script)) = length script
                 /\ length (sleeps (fst (run_from b script)))
                    = length (filter failed script)).
  { revert b. induction Hscript as [|a script Ha _ IH]; intros b.
    - simpl. split; [now exists b | split; reflexivity].
    - destruct a as [e | frames fin].
      + simpl in Ha.
        rewrite (stream_from_cons_looping _ _ _ _ _ (attempt_refused b e Ha)).
        destruct (IH (Z.min (b * 2) 32)) as [Hloop [Hconn Hsleep]].
        cbn [fst snd]. split; [exact Hloop|].
        rewrite connects_app, sleeps_app, length_app, Hconn, Hsleep.
        split; reflexivity.
      + destruct Ha as [Hframes Hfin].
        pose proof (attempt_opened b frames fin Hframes Hfin) as Hstep.
        destruct fin as [|e].
        * rewrite (stream_from_cons_looping _ _ _ _ _ Hstep).
          destruct (IH 1) as [Hloop [Hconn Hsleep]].
          cbn [fst snd]. split; [exact Hloop|].
          rewrite connects_app, sleeps_app, length_app, Hconn, Hsleep.
          rewrite connects_after_connect, sleeps_after_connect.
          rewrite connects_of_yields, sleeps_of_yields.
          split; reflexivity.
        * rewrite (stream_from_cons_looping _ _ _ _ _ Hstep).
          destruct (IH 2) as [Hloop [Hconn Hsleep]].
          cbn [fst snd]. split; [exact Hloop|].
          rewrite connects_app, sleeps_app, length_app, Hconn, Hsleep.
          rewrite connects_after_connect, sleeps_after_connect.
          rewrite connects_app, sleeps_app.
          rewrite connects_of_yields, sleeps_of_yields.
          split; reflexivity. }
  destruct Hrun as [Hloop [Hconn Hsleep]].
  repeat split; try assumption.
  - intros a rest.
    assert (He : handled e = true)
      by (simpl in H; decompose [or] H; subst; try reflexivity; contradiction).
    rewrite (stream_from_cons_looping _ _ _ _ _ (attempt_refused b e He)).
    cbn [fst app].
    destruct (attempt_connects_first (Z.min (b * 2) 32) a) as [out Hout].
    simpl.
    destruct (once (Z.min (b * 2) 32) a) as [o [b'|e']] eqn:Hstep;
      simpl in Hout; subst o.
    + destruct (run_from b' rest). eexists. reflexivity.
    + eexists. reflexivity.
  - intros frames Hframes.
    assert (He : handled e = true)
      by (simpl in H; decompose [or] H; subst; try reflexivity; contradiction).
    apply (attempt_opened b frames (Broken e) Hframes He).
Qed.

(** C7, amended. A frame that fails JSON decoding or lacks the last-price
    member is not skipped and does not lead to a reconnect: the decode
    raises [JSONDecodeError] or [KeyError], which the handler does not
    name, so after the prices of the frames before it the generator is left
    by that exception, which goes to the consumer; no sleep is taken, the
    frames after it are not read and no further connection is opened. *)
Theorem malformed_frame_propagates :
  forall (b : Z) (good : list string) (msg : string) (later : list string)
         (fin : conn_end) (rest : list attempt),
    Forall good_frame good ->
    malformed json_loads msg ->
    exists e,
      (e = JSONDecodeError \/ e = KeyError)
      /\ handled e = false
      /\ run_from b (Opened (good ++ msg :: later) fin :: rest)
         = (Connect :: map Yield (prices_of good), Stopped e).
Proof.
  intros b good msg later fin rest Hgood Hbad.
  destruct (malformed_raises msg Hbad) as [He | He];
    [exists JSONDecodeError | exists KeyError];
    (split; [tauto | split; [reflexivity|]]);
    simpl; unfold Feed.attempt_once;
    rewrite (receive_stops_at_raise good msg later fin _ Hgood He);
    reflexivity.
Qed.

End FeedFacts.

(** *** The feed client on example scripts *)

Lemma ticker_frame_decodes :
  decodable demo_loads demo_float ticker_frame.
Proof. exists (201 # 2). reflexivity. Defined.

Lemma backoff_sequence_witness :
  sleeps (fst (Feed.stream_latest_price demo_loads demo_float
                 (map Refused [OSError; InvalidStatusCode; OSError;
                               ConnectionClosedError; OSError; OSError;
                               OSError; OSError])))
  = [1; 2; 4; 8; 16; 32; 32; 32]
  /\ sleeps (fst (Feed.stream_from demo_loads demo_float 16
                    [Opened [ticker_frame] (Broken ConnectionClosedOK);
                     Refused OSError; Refused InvalidStatusCode]))
     = [1; 2; 4].
Proof.
  destruct (backoff_sequence demo_loads demo_float
              [OSError; InvalidStatusCode; OSError; ConnectionClosedError;
               OSError; OSError; OSError; OSError]
              16 [ticker_frame] (Broken ConnectionClosedOK)) as [Hstart _].
  - repeat constructor.
  - constructor; [exact ticker_frame_decodes | constructor].
  - reflexivity.
  - destruct (backoff_sequence demo_loads demo_float
                [OSError; InvalidStatusCode]
                16 [ticker_frame] (Broken ConnectionClosedOK))
      as [_ [Hreset _]].
    + repeat constructor.
    + constructor; [exact ticker_frame_decodes | constructor].
    + reflexivity.
    + split; [exact Hstart | exact Hreset].
Defined.

Lemma transient_failures_never_reach_the_consumer_witness :
  (exists b',
      snd (Feed.stream_from demo_loads demo_float 1
             [Refused OSError;
              Opened [ticker_frame] (Broken ConnectionClosedOK);
              Opened [] Exhausted;
              Refused InvalidStatusCode])
      = Looping b')
  /\ connects (fst (Feed.stream_from demo_loads demo_float 1
                      [Refused OSError;
                       Opened [ticker_frame] (Broken ConnectionClosedOK);
                       Opened [] Exhausted;
                       Refused InvalidStatusCode]))
     = 4%nat.
Proof.
  destruct (transient_failures_never_reach_the_consumer demo_loads demo_float
              [Refused OSError;
               Opened [ticker_frame] (Broken ConnectionClosedOK);
               Opened [] Exhausted;
               Refused InvalidStatusCode] 1) as [Hloop [Hconn _]].
  - repeat constructor. exact ticker_frame_decodes.
  - split; [exact Hloop | exact Hconn].
Defined.

(** C7, as stated, fails: a frame that is not JSON, and a frame that is a
    JSON object without ["c"], each end the run with the exception at the
    consumer, after one connect and no sleep; the second connection of the
    script is never opened. *)
Lemma malformed_frame_stops_the_stream :
  malformed demo_loads "oops"
  /\ Feed.stream_latest_price demo_loads demo_float
       [Opened [ticker_frame; "oops"%string; ticker_frame] Exhausted;
        Opened [ticker_frame] Exhausted]
     = ([Connect; Yield (201 # 2)], Stopped JSONDecodeError)
  /\ ~ took_reconnect_path
         (Feed.stream_latest_price demo_loads demo_float
            [Opened [ticker_frame; "oops"%string; ticker_frame] Exhausted;
             Opened [ticker_frame] Exhausted])
  /\ malformed demo_loads "{}"
  /\ Feed.stream_latest_price demo_loads demo_float
       [Opened ["{}"%string] Exhausted; Opened [ticker_frame] Exhausted]
     = ([Connect], Stopped KeyError)
  /\ ~ took_reconnect_path
         (Feed.stream_latest_price demo_loads demo_float
            [Opened ["{}"%string] Exhausted; Opened [ticker_frame] Exhausted]).
Proof.
  repeat split.
  - left. reflexivity.
  - intros [[b Hb] _]. vm_compute in Hb. discriminate.
  - right. exists []. split; reflexivity.
  - intros [[b Hb] _]. vm_compute in Hb. discriminate.
Qed.

Lemma malformed_frame_propagates_witness :
  exists e,
    (e = JSONDecodeError \/ e = KeyError)
    /\ handled e = false
    /\ Feed.stream_from demo_loads demo_float 4
         [Opened ([ticker_frame] ++ "{}"%string :: [ticker_frame]) Exhausted;
          Opened [ticker_frame] Exhausted]
       = (Connect :: map Yield (decoded_prices demo_loads demo_float
                                  [ticker_frame]),
          Stopped e).
Proof.
  apply (malformed_frame_propagates demo_loads demo_float 4
           [ticker_frame] "{}"%string [ticker_frame] Exhausted
           [Opened [ticker_frame] Exhausted]).
  - constructor; [exact ticker_frame_decodes | constructor].
  - right. exists []. split; reflexivity.
Defined.

(** * Further properties of the render loop *)

(** ** The x-axis window, lines 110-118 *)

Lemma x_axis_range_from_max :
  forall first_utc now_utc : datetime,
    x_axis_range first_utc now_utc
    = (Z.max first_utc (now_utc - window),
       Z.max first_utc (now_utc - window) + window).
Proof.
  intros first_utc now_utc. unfold x_axis_range.
  destruct (now_utc - first_utc <? window) eqn:H.
  - apply Z.ltb_lt in H.
    now replace (Z.max first_utc (now_utc - window)) with first_utc by lia.
  - apply Z.ltb_ge in H.
    replace (Z.max first_utc (now_utc - window)) with (now_utc - window) by lia.
    f_equal. lia.
Qed.

(** X1. The x-range is always exactly one window wide; it starts at the
    later of History's first timestamp and [now - window], so never before
    the first timestamp, and it never ends before the present instant. *)
Theorem x_range_is_one_window_holding_now :
  forall first_utc now_utc : datetime,
    fst (x_axis_range first_utc now_utc) = Z.max first_utc (now_utc - window)
    /\ snd (x_axis_range first_utc now_utc)
       - fst (x_axis_range first_utc now_utc) = window
    /\ first_utc <= fst (x_axis_range first_utc now_utc)
    /\ now_utc <= snd (x_axis_range first_utc now_utc).
Proof.
  intros first_utc now_utc. rewrite x_axis_range_from_max. simpl.
  repeat split; lia.
Qed.

(** ** The trim step, lines 120-128 *)

Lemma skipn_sorted :
  forall (n : nat) (ts : list datetime),
    StronglySorted Z.le ts -> StronglySorted Z.le (skipn n ts).
Proof.
  induction n as [|n IH]; intros ts H; [exact H|].
  destruct ts as [|t ts]; [exact H|].
  simpl. apply IH. now inversion H.
Qed.

Lemma filter_all_kept :
  forall (x_start : datetime) (ts : list datetime),
    Forall (fun t => x_start <= t) ts ->
    filter (fun t => negb (t <? x_start)) ts = ts.
Proof.
  intros x_start ts H. induction H as [|t ts Ht _ IH]; simpl.
  - reflexivity.
  - apply Z.ltb_ge in Ht. rewrite Ht. simpl. now rewrite IH.
Qed.

Lemma stale_prefix_of_sorted :
  forall (ts : list datetime) (x_start : datetime),
    StronglySorted Z.le ts ->
    skipn (stale_prefix_length ts x_start) ts
    = filter (fun t => negb (t <? x_start)) ts.
Proof.
  induction ts as [|t ts IH]; intros x_start H; simpl.
  - reflexivity.
  - inversion H as [|? ? Hts Hall]; subst.
    destruct (t <? x_start) eqn:Ht; simpl.
    + apply IH, Hts.
    + apply Z.ltb_ge in Ht. f_equal. symmetry. apply filter_all_kept.
      eapply Forall_impl; [|exact Hall]. simpl. intros; lia.
Qed.



Lemma nothing_stale_after_trim :
  forall (ts : list datetime) (x_start : datetime),
    stale_prefix_length (skipn (stale_prefix_length ts x_start) ts) x_start = O.
Proof.
  induction ts as [|t ts IH]; intros x_start; simpl.
  - reflexivity.
  - destruct (t <? x_start) eqn:Ht; simpl.
    + apply IH.
    + now rewrite Ht.
Qed.

(** X3. Trimming again at the same [x_start] finds nothing to remove: the
    second trim leaves the session state as the first left it and ends
    without exception, whichever way the first ended. *)
Theorem trim_twice_is_trim_once :
  forall (s : session) (x_start : datetime),
    trim_step x_start (fst (trim_step x_start s))
    = (fst (trim_step x_start s),
       Ok (times (fst (trim_step x_start s)),
           prices (fst (trim_step x_start s)))).
Proof.
  intros s x_start. apply trim_step_nothing_stale.
  rewrite trim_step_state. simpl. apply nothing_stale_after_trim.
Qed.

(** ** One iteration of the render loop, lines 90-165 *)

Lemma drain_takes_everything :
  forall (q : tick_queue) (s : session) (updated : bool),
    drain q s updated
    = ([], fold_left append_tick q s, (updated || nonempty q)%bool).
Proof.
  induction q as [|o q IH]; intros s updated; simpl.
  - now rewrite orb_false_r.
  - rewrite IH. now rewrite orb_true_r.
Qed.

Lemma appended_times :
  forall (q : tick_queue) (s : session),
    times (fold_left append_tick q s) = times s ++ map fst q.
Proof.
  induction q as [|o q IH]; intros s; simpl.
  - now rewrite app_nil_r.
  - rewrite IH. simpl. now rewrite <- app_assoc.
Qed.

Lemma appended_prices :
  forall (q : tick_queue) (s : session),
    prices (fold_left append_tick q s) = prices s ++ map snd q.
Proof.
  induction q as [|o q IH]; intros s; simpl.
  - now rewrite app_nil_r.
  - rewrite IH. simpl. now rewrite <- app_assoc.
Qed.

Lemma last_slice_snoc :
  forall (A : Type) (l : list A) (x : A), last_slice (l ++ [x]) = [x].
Proof.
  intros A l x. unfold last_slice. rewrite length_app. simpl.
  replace (length l + 1 - 1)%nat with (length l) by lia.
  rewrite skipn_app, skipn_all, Nat.sub_diag. reflexivity.
Qed.

Lemma last_item_snoc :
  forall (A : Type) (l : list A) (x : A), last_item (l ++ [x]) = Ok x.
Proof.
  intros A l x. unfold last_item. now rewrite rev_app_distr.
Qed.

Lemma y_axis_range_of_some :
  forall (l : list price) (x : price),
    exists yr, y_axis_range (l ++ [x]) = Ok yr.
Proof.
  intros l x. destruct l as [|y l]; eexists; reflexivity.
Qed.

Lemma stale_head :
  forall (first : datetime) (later : list datetime) (x_start : datetime),
    stale_prefix_length (first :: later) x_start = O <-> x_start <= first.
Proof.
  intros first later x_start. simpl.
  destruct (first <? x_start) eqn:H.
  - apply Z.ltb_lt in H. split; [discriminate | lia].
  - apply Z.ltb_ge in H. split; [intros _; exact H | reflexivity].
Qed.

(** The items of a non-empty queue once appended: the lists they leave. *)
Lemma appended_snoc :
  forall (earlier : list tick_item) (o : tick_item) (s : session),
    times (fold_left append_tick (earlier ++ [o]) s)
    = (times s ++ map fst earlier) ++ [fst o]
    /\ prices (fold_left append_tick (earlier ++ [o]) s)
       = (prices s ++ map snd earlier) ++ [snd o].
Proof.
  intros earlier o s.
  rewrite appended_times, appended_prices, !map_app. simpl.
  now rewrite !app_assoc.
Qed.

Lemma tick_with_items :
  forall (now_utc : datetime) (earlier : list tick_item) (o : tick_item)
         (s : session),
    tick now_utc (earlier ++ [o]) s
    = ([],
       fst (render_pass now_utc (fold_left append_tick (earlier ++ [o]) s)),
       match snd (render_pass now_utc
                    (fold_left append_tick (earlier ++ [o]) s)) with
       | Ok d => Drawn d
       | Raise e => Crashed e
       end).
Proof.
  intros now_utc earlier o s. unfold tick.
  rewrite drain_takes_everything.
  destruct (appended_snoc earlier o s) as [_ Hp].
  replace (nonempty (earlier ++ [o])) with true by (now destruct earlier).
  replace (nonempty (prices (fold_left append_tick (earlier ++ [o]) s)))
    with true
    by (rewrite Hp; now destruct (prices s ++ map snd earlier)).
  simpl.
  now destruct (render_pass now_utc (fold_left append_tick (earlier ++ [o]) s)).
Qed.

(** X4. An iteration that finds nothing in the queue does nothing: the
    session state is unchanged and nothing is drawn.  Every iteration
    leaves the queue empty, and it is idle only when the queue was. *)
Theorem tick_is_idle_exactly_on_an_empty_queue :
  forall (now_utc : datetime) (q : tick_queue) (s : session),
    tick now_utc [] s = ([], s, Idle)
    /\ fst (fst (tick now_utc q s)) = []
    /\ (snd (tick now_utc q s) = Idle <-> q = []).
Proof.
  intros now_utc q s. split; [reflexivity|].
  destruct q as [|x q'].
  - split; [reflexivity | split; reflexivity].
  - destruct (@exists_last _ (x :: q') ltac:(discriminate)) as [earlier [o Hq]].
    rewrite Hq, tick_with_items. simpl. split; [reflexivity|].
    split.
    + destruct (snd (render_pass now_utc
                       (fold_left append_tick (earlier ++ [o]) s)));
        discriminate.
    + intros H. destruct earlier; discriminate.
Qed.

(** The pass over a History that starts at [first]. *)
Lemma render_pass_from_first :
  forall (now_utc first : datetime) (later : list datetime)
         (shown : list price) (p : price) (s : session),
    times s = first :: later ->
    prices s = shown ++ [p] ->
    (window < now_utc - first ->
     render_pass now_utc s
     = (fst (trim_step (now_utc - window) s), Raise AttributeError))
    /\ (now_utc - first <= window ->
        exists yr,
          y_axis_range (prices s) = Ok yr
          /\ render_pass now_utc s
             = (s, Ok (mkDisplay (times s) (prices s)
                         (last_slice (times s)) (last_slice (prices s))
                         (x_axis_range first now_utc) yr))).
Proof.
  intros now_utc first later shown p s Ht Hp.
  pose proof (x_axis_range_from_max first now_utc) as Hx.
  split; intros Hnow; unfold render_pass; rewrite Ht, Hx; simpl fst.
  - replace (Z.max first (now_utc - window)) with (now_utc - window) by lia.
    assert (Hn : (0 < stale_prefix_length (times s) (now_utc - window)%Z)%nat).
    { rewrite Ht. simpl.
      replace (first <? now_utc - window) with true
        by (symmetry; apply Z.ltb_lt; lia).
      lia. }
    pose proof (trim_step_raises_after_store (now_utc - window) s Hn) as Hr.
    destruct (trim_step (now_utc - window) s) as [s' r]. simpl in *.
    now rewrite Hr.
  - replace (Z.max first (now_utc - window)) with first by lia.
    rewrite trim_step_nothing_stale
      by (rewrite Ht; apply stale_head; lia).
    destruct (y_axis_range_of_some shown p) as [yr Hyr].
    rewrite <- Hp in Hyr.
    exists yr. split; [exact Hyr|].
    assert (Hlp : last_item (prices s) = Ok p)
      by (rewrite Hp; apply last_item_snoc).
    assert (Hlt : exists t, last_item (times s) = Ok t).
    { destruct (exists_last (l := times s)) as [ts [t Hts]];
        [rewrite Ht; discriminate|].
      exists t. rewrite Hts. apply last_item_snoc. }
    destruct Hlt as [t Hlt].
    simpl. rewrite Hlt, Hlp, Hyr. simpl. rewrite ?Ht. reflexivity.
Qed.

(** X5. Prices being finite floats (an infinite or NaN price is not a
    value of this model), an iteration that takes at least one item from
    the queue either draws or raises the [AttributeError] of line 127, and
    nothing else: it
    raises exactly when the first timestamp of History (the appended items
    included) is more than one window before [now], and then the session
    state is History trimmed at [now - window]; it draws exactly when that
    timestamp is within the window, and then History is what it was with the
    items appended. *)
Theorem tick_raises_exactly_past_the_window :
  forall (now_utc : datetime) (earlier : list tick_item) (o : tick_item)
         (s : session),
    let s1 := fold_left append_tick (earlier ++ [o]) s in
    let first := hd 0 (times s1) in
    (window < now_utc - first ->
     tick now_utc (earlier ++ [o]) s
     = ([], fst (trim_step (now_utc - window) s1), Crashed AttributeError))
    /\ (now_utc - first <= window ->
        exists d, tick now_utc (earlier ++ [o]) s = ([], s1, Drawn d)).
Proof.
  intros now_utc earlier o s s1 first.
  destruct (appended_snoc earlier o s) as [Ht Hp].
  fold s1 in Ht, Hp.
  destruct (times s1) as [|t0 later] eqn:Hts.
  { destruct (times s ++ map fst earlier); discriminate. }
  subst first. simpl hd.
  destruct (render_pass_from_first now_utc t0 later _ _ s1 Hts Hp)
    as [Hraise Hdraw].
  rewrite tick_with_items. fold s1.
  split; intros Hnow.
  - now rewrite (Hraise Hnow).
  - destruct (Hdraw Hnow) as [yr [_ Hpass]]. rewrite Hpass.
    eexists. reflexivity.
Qed.



Lemma tick_raises_exactly_past_the_window_witness :
  tick (window + 9) ([] ++ [(window + 8, 7%Q)]) (mkSession [0; 20] [1%Q; 2%Q])
  = ([], mkSession [20; window + 8] [2%Q; 7%Q], Crashed AttributeError)
  /\ exists d,
       tick (window - 1) ([] ++ [(window - 2, 7%Q)])
            (mkSession [0; 20] [1%Q; 2%Q])
       = ([], mkSession [0; 20; window - 2] [1%Q; 2%Q; 7%Q], Drawn d).
Proof.
  split.
  - apply (tick_raises_exactly_past_the_window (window + 9) []
             (window + 8, 7%Q) (mkSession [0; 20] [1%Q; 2%Q])).
    vm_compute. reflexivity.
  - apply (tick_raises_exactly_past_the_window (window - 1) []
             (window - 2, 7%Q) (mkSession [0; 20] [1%Q; 2%Q])).
    vm_compute. discriminate.
Defined.

(** ** The y-axis range, lines 156-160 *)

Lemma Qltb_true : forall x y : Q, Qltb x y = true -> (x < y)%Q.
Proof.
  intros x y H. unfold Qltb in H. apply negb_true_iff in H.
  apply Qnot_le_lt. intros Hle. apply Qle_bool_iff in Hle. congruence.
Qed.

Lemma Qltb_false : forall x y : Q, Qltb x y = false -> (y <= x)%Q.
Proof.
  intros x y H. unfold Qltb in H. apply negb_false_iff in H.
  now apply Qle_bool_iff.
Qed.

Lemma running_min_is_least :
  forall (r : list price) (x : price),
    let m := fold_left (fun m y => if Qltb y m then y else m) r x in
    In m (x :: r) /\ Forall (fun y => (m <= y)%Q) (x :: r).
Proof.
  induction r as [|y r IH]; intros x; cbv zeta.
  - simpl. split; [now left | repeat constructor; apply Qle_refl].
  - simpl fold_left.
    destruct (Qltb y x) eqn:Hyx.
    + destruct (IH y) as [Hin Hall]. apply Qltb_true in Hyx.
      split; [right; exact Hin|].
      inversion Hall as [|? ? Hmy Hrest]; subst.
      constructor; [|constructor; assumption].
      apply Qle_trans with y; [exact Hmy | now apply Qlt_le_weak].
    + destruct (IH x) as [Hin Hall]. apply Qltb_false in Hyx.
      split; [destruct Hin as [<- | Hin]; [now left | right; now right]|].
      inversion Hall as [|? ? Hmx Hrest]; subst.
      constructor; [exact Hmx|].
      constructor; [|exact Hrest].
      apply Qle_trans with x; assumption.
Qed.

Lemma running_max_is_greatest :
  forall (r : list price) (x : price),
    let m := fold_left (fun m y => if Qltb m y then y else m) r x in
    In m (x :: r) /\ Forall (fun y => (y <= m)%Q) (x :: r).
Proof.
  induction r as [|y r IH]; intros x; cbv zeta.
  - simpl. split; [now left | repeat constructor; apply Qle_refl].
  - simpl fold_left.
    destruct (Qltb x y) eqn:Hxy.
    + destruct (IH y) as [Hin Hall]. apply Qltb_true in Hxy.
      split; [right; exact Hin|].
      inversion Hall as [|? ? Hym Hrest]; subst.
      constructor; [|constructor; assumption].
      apply Qle_trans with y; [now apply Qlt_le_weak | exact Hym].
    + destruct (IH x) as [Hin Hall]. apply Qltb_false in Hxy.
      split; [destruct Hin as [<- | Hin]; [now left | right; now right]|].
      inversion Hall as [|? ? Hxm Hrest]; subst.
      constructor; [exact Hxm|].
      constructor; [|exact Hrest].
      apply Qle_trans with x; assumption.
Qed.

Lemma inject_Z_tick : (inject_Z Y_TICK_INTERVAL == tickQ)%Q.
Proof. reflexivity. Qed.

(** The exact range rule around the least and the greatest price. *)
Lemma exact_range_encloses_every_price :
  forall (p0 : price) (more : list price),
    let ymin := fold_left (fun m y => if Qltb y m then y else m) more p0 in
    let ymax := fold_left (fun m y => if Qltb m y then y else m) more p0 in
    In ymin (p0 :: more)
    /\ In ymax (p0 :: more)
    /\ y_low ymin mod Y_TICK_INTERVAL = 0
    /\ y_high ymax mod Y_TICK_INTERVAL = 0
    /\ Forall (fun p => (inject_Z (y_low ymin) <= p - tickQ)%Q
                        /\ (p + tickQ - 1 < inject_Z (y_high ymax))%Q)
              (p0 :: more)
    /\ 2 * Y_TICK_INTERVAL <= y_high ymax - y_low ymin.
Proof.
  intros p0 more.
  destruct (running_min_is_least more p0) as [Hinmin Hmin].
  destruct (running_max_is_greatest more p0) as [Hinmax Hmax].
  cbv zeta in *.
  set (ymin := fold_left (fun m y => if Qltb y m then y else m) more p0) in *.
  set (ymax := fold_left (fun m y => if Qltb m y then y else m) more p0) in *.
  assert (Hall : Forall (fun p => (inject_Z (y_low ymin) <= p - tickQ)%Q
                                  /\ (p + tickQ - 1 < inject_Z (y_high ymax))%Q)
                        (p0 :: more)).
  { apply Forall_forall. intros p Hp.
    pose proof (proj1 (Forall_forall _ _) Hmin p Hp) as Hlo.
    pose proof (proj1 (Forall_forall _ _) Hmax p Hp) as Hhi.
    simpl in Hlo, Hhi. split.
    - apply Qle_trans with (ymin - tickQ)%Q; [apply y_low_leaves_a_tick|].
      unfold Qminus. now apply Qplus_le_compat; [|apply Qle_refl].
    - apply Qle_lt_trans with (ymax + tickQ - 1)%Q;
        [|apply y_high_leaves_almost_a_tick].
      unfold Qminus.
      repeat (apply Qplus_le_compat; [|apply Qle_refl]). exact Hhi. }
  split; [exact Hinmin|].
  split; [exact Hinmax|].
  split; [apply Z.mod_mul; discriminate|].
  split; [apply Z.mod_mul; discriminate|].
  split; [exact Hall|].
  inversion Hall as [|? ? [Hlo Hhi] _]; subst.
  assert (Hlt : (inject_Z (y_low ymin + 499) < inject_Z (y_high ymax))%Q).
  { eapply Qle_lt_trans; [|exact Hhi].
    rewrite inject_Z_plus.
    apply Qle_trans with (p0 - tickQ + inject_Z 499)%Q.
    - apply Qplus_le_compat; [exact Hlo | apply Qle_refl].
    - apply Qle_lteq. right. unfold tickQ, Y_TICK_INTERVAL.
      change (inject_Z 250) with (250 # 1).
      change (inject_Z 499) with (499 # 1).
      ring. }
  rewrite <- Zlt_Qlt in Hlt.
  unfold y_low, y_high, Y_TICK_INTERVAL in *. lia.
Qed.

(** ** Binary64: operations that round nothing *)

Lemma pow2_positive : forall z : Z, (0 < Binary64.pow2 z)%Q.
Proof. intros z. apply Qpower_0_lt. reflexivity. Qed.

Lemma pow2_sum :
  forall a b : Z,
    (Binary64.pow2 (a + b) == Binary64.pow2 a * Binary64.pow2 b)%Q.
Proof. intros a b. apply Qpower_plus. discriminate. Qed.

Lemma pow2_of_nonneg :
  forall z : Z, 0 <= z -> (Binary64.pow2 z == inject_Z (2 ^ z))%Q.
Proof.
  intros z Hz. unfold Binary64.pow2.
  rewrite (Zpower_Qpower 2 z Hz). reflexivity.
Qed.

Lemma pow2_cancel :
  forall k : Z, (Binary64.pow2 k * Binary64.pow2 (- k) == 1)%Q.
Proof.
  intros k. rewrite <- pow2_sum. now rewrite Z.add_opp_diag_r.
Qed.

(** A multiple of [2 ^ -k] moved by a whole number is one again. *)
Lemma dyadic_shift :
  forall (m k c : Z),
    0 <= k ->
    (inject_Z m * Binary64.pow2 (- k) + inject_Z c
     == inject_Z (m + c * 2 ^ k) * Binary64.pow2 (- k))%Q.
Proof.
  intros m k c Hk.
  rewrite inject_Z_plus, inject_Z_mult, <- (pow2_of_nonneg k Hk).
  rewrite Qmult_plus_distr_l, <- Qmult_assoc, pow2_cancel.
  ring.
Qed.

Lemma dyadic_below :
  forall (m k : Z),
    0 <= k ->
    (Qabs (inject_Z m * Binary64.pow2 (- k)) <= inject_Z (Z.abs m))%Q.
Proof.
  intros m k Hk.
  rewrite Qabs_Qmult.
  rewrite (Qabs_pos (Binary64.pow2 (- k)))
    by (apply Qlt_le_weak, pow2_positive).
  assert (Hm : (Qabs (inject_Z m) == inject_Z (Z.abs m))%Q) by reflexivity.
  rewrite Hm.
  assert (H1 : (Binary64.pow2 (- k) <= 1)%Q).
  { change 1%Q with (Binary64.pow2 0).
    apply Qpower_le_compat_l; [lia | discriminate]. }
  assert (H0 : (0 <= inject_Z (Z.abs m))%Q).
  { change 0%Q with (inject_Z 0). rewrite <- Zle_Qle. lia. }
  pose proof (pow2_positive (- k)) as Hp.
  nra.
Qed.

Lemma ilog2_below :
  forall (x : Q) (j : Z),
    1 <= j ->
    (Qabs x < Binary64.pow2 j)%Q ->
    Binary64.ilog2 x < j.
Proof.
  intros x j Hj Hx. unfold Binary64.ilog2.
  destruct (Qle_bool 1 (Qabs x)) eqn:H1.
  - apply Qle_bool_iff in H1.
    assert (Hf : 1 <= Qfloor (Qabs x)).
    { change 1 with (Qfloor 1). now apply Qfloor_resp_le. }
    apply Z.log2_lt_pow2; [lia|].
    rewrite Zlt_Qlt.
    apply Qle_lt_trans with (Qabs x); [apply Qfloor_le|].
    rewrite <- pow2_of_nonneg by lia. exact Hx.
  - pose proof (Z.log2_up_nonneg (Qceiling (/ Qabs x))). lia.
Qed.

Lemma rne_comp :
  forall x y : Q, (x == y)%Q -> Binary64.rne x = Binary64.rne y.
Proof.
  intros x y H. unfold Binary64.rne. cbv zeta.
  rewrite (Qfloor_comp x y H).
  assert (Hc : ((x - inject_Z (Qfloor y) ?= 1 # 2)
                = (y - inject_Z (Qfloor y) ?= 1 # 2))%Q).
  { apply Qcompare_comp; [now rewrite H | reflexivity]. }
  now rewrite Hc.
Qed.

Lemma rne_of_integer : forall z : Z, Binary64.rne (inject_Z z) = z.
Proof.
  intros z. unfold Binary64.rne. rewrite Qfloor_Z.
  assert (H : ((inject_Z z - inject_Z z ?= 1 # 2) = Lt)%Q).
  { apply Qlt_alt. setoid_replace (inject_Z z - inject_Z z)%Q with 0%Q by ring.
    reflexivity. }
  now rewrite H.
Qed.

(** A value with a 53-bit numerator over [2 ^ k], [k] up to 52, is a
    binary64 value: rounding returns it. *)
Lemma round_exact :
  forall (x : Q) (m k : Z),
    0 <= k <= 52 ->
    Z.abs m < 2 ^ 53 ->
    (x == inject_Z m * Binary64.pow2 (- k))%Q ->
    (Binary64.round x == x)%Q.
Proof.
  intros x m k Hk Hm Hx. unfold Binary64.round.
  destruct (Qeq_bool x 0) eqn:H0.
  - apply Qeq_bool_iff in H0. now rewrite H0.
  - assert (He : Binary64.ilog2 x < 53 - k).
    { apply ilog2_below; [lia|].
      rewrite Hx.
      apply Qle_lt_trans with (inject_Z (Z.abs m) * Binary64.pow2 (- k))%Q.
      - rewrite Qabs_Qmult.
        rewrite (Qabs_pos (Binary64.pow2 (- k)))
          by (apply Qlt_le_weak, pow2_positive).
        apply Qle_lteq. right. reflexivity.
      - replace (53 - k) with (53 + - k) by lia.
        rewrite pow2_sum, (pow2_of_nonneg 53) by lia.
        apply Qmult_lt_compat_r; [apply pow2_positive|].
        now rewrite <- Zlt_Qlt. }
    set (q := Z.max (Binary64.ilog2 x - 52) (-1074)).
    assert (Hq : 0 <= - k - q) by (unfold q; lia).
    assert (Hscaled : (x / Binary64.pow2 q
                       == inject_Z (m * 2 ^ (- k - q)))%Q).
    { unfold Qdiv. rewrite Hx.
      assert (Hinv : (/ Binary64.pow2 q == Binary64.pow2 (- q))%Q)
        by (symmetry; apply Qpower_opp).
      rewrite Hinv, <- Qmult_assoc, <- pow2_sum.
      replace (- k + - q) with (- k - q) by lia.
      now rewrite (pow2_of_nonneg _ Hq), inject_Z_mult. }
    cbv zeta. fold q.
    rewrite (rne_comp _ _ Hscaled), rne_of_integer.
    rewrite inject_Z_mult, <- (pow2_of_nonneg _ Hq).
    rewrite <- Qmult_assoc, <- pow2_sum.
    replace (- k - q + q) with (- k) by lia.
    now rewrite Hx.
Qed.

Lemma round_of_integer :
  forall (x : Q) (z : Z),
    Z.abs z < 2 ^ 53 ->
    (x == inject_Z z)%Q ->
    (Binary64.round x == inject_Z z)%Q.
Proof.
  intros x z Hz Hx.
  rewrite (round_exact x z 0); [exact Hx | lia | exact Hz|].
  rewrite Hx. change (Binary64.pow2 (- 0)) with 1%Q. ring.
Qed.

Lemma trunc_comp :
  forall x y : Q, (x == y)%Q -> Binary64.trunc x = Binary64.trunc y.
Proof.
  intros x y H. unfold Binary64.trunc.
  rewrite (Qfloor_comp x y H), (Qceiling_comp x y H).
  now rewrite (Qleb_comp 0%Q 0%Q (Qeq_refl 0) x y H).
Qed.

Lemma trunc_of_integer : forall z : Z, Binary64.trunc (inject_Z z) = z.
Proof.
  intros z. unfold Binary64.trunc.
  destruct (Qle_bool 0 (inject_Z z)); [apply Qfloor_Z | apply Qceiling_Z].
Qed.

Lemma Qfloor_unique :
  forall (x : Q) (z : Z),
    (inject_Z z <= x)%Q -> (x < inject_Z z + 1)%Q -> Qfloor x = z.
Proof.
  intros x z Hlo Hhi.
  pose proof (Qfloor_le x) as H1. pose proof (Qlt_floor x) as H2.
  rewrite inject_Z_plus in H2.
  assert (Ha : Qfloor x < z + 1).
  { rewrite Zlt_Qlt, inject_Z_plus. change (inject_Z 1) with 1%Q in *. lra. }
  assert (Hb : z < Qfloor x + 1).
  { rewrite Zlt_Qlt, inject_Z_plus. change (inject_Z 1) with 1%Q in *. lra. }
  lia.
Qed.

Lemma Qltb_iff : forall x y : Q, Qltb x y = true <-> (x < y)%Q.
Proof.
  intros x y. split; [apply Qltb_true|].
  intros H. unfold Qltb. apply negb_true_iff.
  destruct (Qle_bool y x) eqn:Hle; [|reflexivity].
  apply Qle_bool_iff in Hle. lra.
Qed.

Lemma snap_of_integer :
  forall (dv : Q) (d : Z),
    (dv == inject_Z d)%Q ->
    (Binary64.snap_quotient dv == inject_Z d)%Q.
Proof.
  intros dv d H. unfold Binary64.snap_quotient.
  destruct (Qeq_bool dv 0) eqn:H0.
  - apply Qeq_bool_iff in H0. now rewrite <- H, H0.
  - cbv zeta. rewrite (Qfloor_comp dv (inject_Z d) H), Qfloor_Z.
    assert (Hs : (Binary64.sub dv (inject_Z d) == inject_Z 0)%Q).
    { apply round_of_integer; [reflexivity|]. rewrite H.
      change (inject_Z 0) with 0%Q. ring. }
    assert (Hb : Qltb (1 # 2) (Binary64.sub dv (inject_Z d)) = false).
    { destruct (Qltb (1 # 2) (Binary64.sub dv (inject_Z d))) eqn:Hb;
        [|reflexivity].
      apply Qltb_iff in Hb. rewrite Hs in Hb.
      change (inject_Z 0) with 0%Q in Hb. lra. }
    now rewrite Hb.
Qed.

(** The quotient of the trim toward zero, in the two cases of its sign. *)
Lemma trunc_cases :
  forall y : Q,
    ((0 <= y)%Q /\ Binary64.trunc y = Qfloor y
     /\ (0 <= inject_Z (Qfloor y) <= y)%Q)
    \/ ((y < 0)%Q /\ Binary64.trunc y = Qceiling y
        /\ (y <= inject_Z (Qceiling y) <= 0)%Q).
Proof.
  intros y. unfold Binary64.trunc.
  destruct (Qle_bool 0 y) eqn:H.
  - apply Qle_bool_iff in H. left. split; [exact H | split; [reflexivity|]].
    split; [|apply Qfloor_le].
    change 0%Q with (inject_Z 0). rewrite <- Zle_Qle.
    change 0 with (Qfloor 0). now apply Qfloor_resp_le.
  - assert (Hy : (y < 0)%Q).
    { apply Qnot_le_lt. intros Hle. apply Qle_bool_iff in Hle. congruence. }
    right. split; [exact Hy | split; [reflexivity|]].
    split; [apply Qle_ceiling|].
    change 0%Q with (inject_Z 0). rewrite <- Zle_Qle.
    change 0 with (Qceiling 0). apply Qceiling_resp_le. lra.
Qed.

(** On a binary64 value with a numerator of 53 bits over [2 ^ k], the
    float floor division by the tick is the floor of the exact quotient. *)
Lemma floordiv_by_tick_exact :
  forall (x : Q) (m k : Z),
    0 <= k <= 52 ->
    Z.abs m < 2 ^ 53 ->
    (x == inject_Z m * Binary64.pow2 (- k))%Q ->
    Binary64.int (Binary64.floordiv x tickQ) = floordiv_tick x.
Proof.
  intros x m k Hk Hm Hx.
  unfold floordiv_tick, Binary64.int, Binary64.floordiv. cbv zeta.
  set (y := (x / tickQ)%Q).
  set (t := Binary64.trunc y).
  assert (Hxy : (x == y * (250 # 1))%Q).
  { unfold y, tickQ, Y_TICK_INTERVAL. change (inject_Z 250) with (250 # 1).
    field. }
  assert (Hxb : (Qabs x < inject_Z (2 ^ 53))%Q).
  { apply Qle_lt_trans with (inject_Z (Z.abs m)).
    - rewrite Hx. apply dyadic_below. lia.
    - now rewrite <- Zlt_Qlt. }
  apply Qabs_Qlt_condition in Hxb. destruct Hxb as [Hxlo Hxhi].
  assert (Hmd : (Binary64.fmod x tickQ == x - inject_Z t * (250 # 1))%Q)
    by reflexivity.
  set (md := Binary64.fmod x tickQ) in *.
  assert (Ht250 : - 2 ^ 53 < t * 250 < 2 ^ 53).
  { rewrite !Zlt_Qlt, inject_Z_mult, inject_Z_opp.
    change (inject_Z 250) with (250 # 1).
    destruct (trunc_cases y) as [[Hy [_ [H1 H2]]] | [Hy [Ht [H1 H2]]]].
    - assert (Htf : t = Qfloor y)
        by (unfold t, Binary64.trunc;
            now replace (Qle_bool 0 y) with true
              by (symmetry; now apply Qle_bool_iff)).
      rewrite Htf. lra.
    - fold t in Ht. rewrite Ht. lra. }
  assert (Hsub : (Binary64.sub x md == inject_Z (t * 250))%Q).
  { apply round_of_integer; [lia|].
    rewrite Hmd, inject_Z_mult. change (inject_Z 250) with (250 # 1). ring. }
  assert (Hdiv : (Binary64.div (Binary64.sub x md) tickQ == inject_Z t)%Q).
  { apply round_of_integer; [lia|].
    rewrite Hsub, inject_Z_mult. unfold tickQ, Y_TICK_INTERVAL. field. }
  set (dv := Binary64.div (Binary64.sub x md) tickQ) in *.
  assert (Hcond : (negb (Qeq_bool md 0) && xorb (Qltb tickQ 0) (Qltb md 0))%bool
                  = Qltb md 0).
  { change (Qltb tickQ 0) with false. simpl xorb.
    destruct (Qltb md 0) eqn:Hlt; [|apply andb_false_r].
    apply Qltb_iff in Hlt.
    destruct (Qeq_bool md 0) eqn:Heq; [|reflexivity].
    apply Qeq_bool_iff in Heq. lra. }
  assert (Hlow : exists d : Z,
             (Binary64.lower_quotient md tickQ dv == inject_Z d)%Q
             /\ d = Qfloor y).
  { unfold Binary64.lower_quotient. rewrite Hcond.
    destruct (Qltb md 0) eqn:Hlt.
    - apply Qltb_iff in Hlt. exists (t - 1). split.
      + apply round_of_integer; [lia|].
        rewrite Hdiv. unfold Z.sub. rewrite inject_Z_plus. reflexivity.
      + symmetry. apply Qfloor_unique.
        * destruct (trunc_cases y) as [[Hy [_ [H1 H2]]] | [Hy [Ht [H1 H2]]]].
          -- assert (Htf : t = Qfloor y)
               by (unfold t, Binary64.trunc;
                   now replace (Qle_bool 0 y) with true
                     by (symmetry; now apply Qle_bool_iff)).
             rewrite Htf in Hmd. lra.
          -- fold t in Ht. pose proof (Qceiling_lt y) as Hc.
             rewrite Ht. exact (Qlt_le_weak _ _ Hc).
        * unfold Z.sub. rewrite inject_Z_plus.
          change (inject_Z (- (1))) with (- (1))%Q. lra.
    - assert (Hge : (0 <= md)%Q).
      { apply Qnot_lt_le. intros Hn. apply Qltb_iff in Hn. congruence. }
      exists t. split; [exact Hdiv|].
      destruct (trunc_cases y) as [[Hy [Ht _]] | [Hy [Ht [H1 H2]]]].
      + exact Ht.
      + fold t in Ht. symmetry. rewrite Ht.
        assert (Hyt : (y == inject_Z (Qceiling y))%Q) by (rewrite Ht in Hmd; lra).
        rewrite Hyt at 1. apply Qfloor_Z. }
  destruct Hlow as [d [Hd Hfloor]].
  rewrite (trunc_comp _ _ (snap_of_integer _ d Hd)), trunc_of_integer.
  exact Hfloor.
Qed.

Lemma exact_scope_exponent :
  forall m k : Z, 0 <= k -> Z.abs m + 500 * 2 ^ k < 2 ^ 53 -> k <= 52.
Proof.
  intros m k Hk H.
  assert (H2 : 2 ^ k < 2 ^ 53) by lia.
  apply Z.pow_lt_mono_r_iff in H2; lia.
Qed.

(** Adding a whole number to a multiple of [2 ^ -k] rounds nothing while
    the numerator keeps to 53 bits. *)
Lemma round_of_shifted :
  forall (x p : Q) (m k c : Z),
    0 <= k <= 52 ->
    (p == inject_Z m * Binary64.pow2 (- k))%Q ->
    (x == p + inject_Z c)%Q ->
    Z.abs (m + c * 2 ^ k) < 2 ^ 53 ->
    (Binary64.round x == p + inject_Z c)%Q
    /\ (p + inject_Z c
        == inject_Z (m + c * 2 ^ k) * Binary64.pow2 (- k))%Q.
Proof.
  intros x p m k c Hk Hp Hx Hb.
  assert (Hd : (p + inject_Z c
                == inject_Z (m + c * 2 ^ k) * Binary64.pow2 (- k))%Q)
    by (rewrite Hp; apply dyadic_shift; lia).
  split; [|exact Hd].
  rewrite <- Hx.
  apply (round_exact x (m + c * 2 ^ k) k Hk Hb). now rewrite Hx.
Qed.

(** On the prices of [exact_for_ticks] the two lines compute what the
    exact quotients give. *)
Lemma float_range_is_exact :
  forall p : price,
    exact_for_ticks p ->
    y_low_float p = y_low p /\ y_high_float p = y_high p.
Proof.
  intros p [m [k [Hk0 [Hp Hb]]]].
  pose proof (exact_scope_exponent m k Hk0 Hb) as Hk52.
  assert (Hk : 0 <= k <= 52) by lia.
  assert (Hpow : 0 < 2 ^ k) by (apply Z.pow_pos_nonneg; lia).
  split.
  - unfold y_low_float, y_low. f_equal.
    destruct (round_of_shifted (p - tickQ)%Q p m k (-250) Hk Hp)
      as [Hr Hd]; [reflexivity | lia |].
    rewrite (floordiv_by_tick_exact (Binary64.sub p tickQ)
               (m + -250 * 2 ^ k) k Hk);
      [| lia | unfold Binary64.sub; rewrite Hr; exact Hd].
    apply floordiv_tick_eq. unfold Binary64.sub. rewrite Hr. reflexivity.
  - unfold y_high_float, y_high. f_equal.
    destruct (round_of_shifted (p + tickQ)%Q p m k 250 Hk Hp)
      as [Hr1 Hd1]; [reflexivity | lia |].
    fold (Binary64.add p tickQ) in Hr1.
    destruct (round_of_shifted (Binary64.add p tickQ + tickQ)%Q
                (p + tickQ)%Q (m + 250 * 2 ^ k) k 250 Hk Hd1)
      as [Hr2 Hd2];
      [now rewrite Hr1 | lia |].
    fold (Binary64.add (Binary64.add p tickQ) tickQ) in Hr2.
    destruct (round_of_shifted
                (Binary64.add (Binary64.add p tickQ) tickQ - 1)%Q
                (p + tickQ + tickQ)%Q (m + 250 * 2 ^ k + 250 * 2 ^ k) k (-1)
                Hk Hd2)
      as [Hr3 Hd3];
      [now rewrite Hr2 | lia |].
    fold (Binary64.sub (Binary64.add (Binary64.add p tickQ) tickQ) 1) in Hr3.
    assert (Hb3 : Z.abs (m + 250 * 2 ^ k + 250 * 2 ^ k + -1 * 2 ^ k) < 2 ^ 53)
      by lia.
    rewrite (floordiv_by_tick_exact _ _ k Hk Hb3 (Qeq_trans _ _ _ Hr3 Hd3)).
    apply floordiv_tick_eq. rewrite Hr3. reflexivity.
Qed.

(** The exact quotients around a price [f * tick + r], [0 <= r < tick]. *)
Lemma exact_range_from_remainder :
  forall p : Q,
    y_low p = (Qfloor (p / tickQ) - 1) * Y_TICK_INTERVAL
    /\ ((tick_remainder p == 0)%Q ->
        y_high p = (Qfloor (p / tickQ) + 1) * Y_TICK_INTERVAL)
    /\ ((1 <= tick_remainder p)%Q ->
        y_high p = (Qfloor (p / tickQ) + 2) * Y_TICK_INTERVAL).
Proof.
  intros p. unfold y_low, y_high, floordiv_tick, tick_remainder.
  set (y := (p / tickQ)%Q). set (f := Qfloor y).
  pose proof (Qfloor_le y) as Hlo. pose proof (Qlt_floor y) as Hhi.
  fold f in Hlo, Hhi. rewrite inject_Z_plus in Hhi.
  change (inject_Z 1) with 1%Q in Hhi.
  assert (Hp : (p == y * (250 # 1))%Q).
  { unfold y, tickQ, Y_TICK_INTERVAL. change (inject_Z 250) with (250 # 1).
    field. }
  assert (H1 : ((p - tickQ) / tickQ == y - 1)%Q).
  { unfold y, tickQ, Y_TICK_INTERVAL. change (inject_Z 250) with (250 # 1).
    field. }
  assert (H2 : ((p + tickQ + tickQ - 1) / tickQ == y + (499 # 250))%Q).
  { unfold y, tickQ, Y_TICK_INTERVAL. change (inject_Z 250) with (250 # 1).
    field. }
  split; [|split].
  - f_equal. rewrite (Qfloor_comp _ _ H1). apply Qfloor_unique.
    + unfold Z.sub. rewrite inject_Z_plus.
      change (inject_Z (- (1))) with (- (1))%Q. lra.
    + unfold Z.sub. rewrite inject_Z_plus.
      change (inject_Z (- (1))) with (- (1))%Q. lra.
  - intros Hr. unfold tickQ, Y_TICK_INTERVAL in Hr.
    change (inject_Z 250) with (250 # 1) in Hr.
    f_equal. rewrite (Qfloor_comp _ _ H2). apply Qfloor_unique.
    + rewrite inject_Z_plus. change (inject_Z 1) with 1%Q. lra.
    + rewrite inject_Z_plus. change (inject_Z 1) with 1%Q. lra.
  - intros Hr. unfold tickQ, Y_TICK_INTERVAL in Hr.
    change (inject_Z 250) with (250 # 1) in Hr.
    f_equal. rewrite (Qfloor_comp _ _ H2). apply Qfloor_unique.
    + rewrite inject_Z_plus. change (inject_Z 2) with 2%Q. lra.
    + rewrite inject_Z_plus. change (inject_Z 2) with 2%Q. lra.
Qed.

(** C9, amended. For a History of one point whose price is a binary64
    value on which lines 158-159 round nothing ([exact_for_ticks]: whole
    numbers of magnitude below [2 ^ 53 - 500], and prices such as 100.5 or
    the float nearest to 114251.37), the range is computed without any
    special case, with the rounding of every float operation taken into
    account; [low] is [high - 2 * Y_TICK] when the price is a multiple of
    the tick, and [high - 3 * Y_TICK] when its remainder modulo the tick is
    at least 1. *)
Theorem single_point_span :
  forall p : price,
    exact_for_ticks p ->
    exists low high : Z,
      y_axis_range_float [p] = Ok (low, high)
      /\ ((tick_remainder p == 0)%Q -> low = high - 2 * Y_TICK_INTERVAL)
      /\ ((1 <= tick_remainder p)%Q -> low = high - 3 * Y_TICK_INTERVAL).
Proof.
  intros p Hp.
  exists (y_low_float p), (y_high_float p). split; [reflexivity|].
  destruct (float_range_is_exact p Hp) as [-> ->].
  destruct (exact_range_from_remainder p) as [Hlow [Hon Hoff]].
  split; intros Hr.
  - rewrite Hlow, (Hon Hr). lia.
  - rewrite Hlow, (Hoff Hr). lia.
Qed.

Lemma single_point_span_witness :
  exists low high : Z,
    y_axis_range_float [201 # 2] = Ok (low, high)
    /\ ((tick_remainder (201 # 2) == 0)%Q -> low = high - 2 * Y_TICK_INTERVAL)
    /\ ((1 <= tick_remainder (201 # 2))%Q -> low = high - 3 * Y_TICK_INTERVAL).
Proof.
  apply (single_point_span (201 # 2)).
  exists 201, 1. split; [lia | split; [reflexivity | reflexivity]].
Defined.

(** Lines 158-159 with their rounding, at prices where something is
    rounded or the integer ceiling idiom is off: the values Python's float
    arithmetic gives. *)
Lemma float_range_examples :
  y_axis_range_float [501 # 2] = Ok (0, 500)
  /\ y_axis_range_float [100 # 1; 400 # 1] = Ok (-250, 750)
  /\ y_axis_range_float [(2 ^ 53 - 1) # (2 ^ 53)] = Ok (-250, 500)
  /\ y_axis_range_float [100000000000000000 # 1]
     = Ok (99999999999999500, 100000000000000500)
  /\ y_axis_range_float [100000000000000000000 # 1]
     = Ok (100000000000000000000, 100000000000000000000)
  /\ y_axis_range_float [9007199254741000 # 1]
     = Ok (9007199254740750, 9007199254741500)
  /\ y_axis_range_float [-1 # (2 ^ 70)] = Ok (-250, 250).
Proof.
  split; [vm_compute; reflexivity|].
  split; [vm_compute; reflexivity|].
  split; [vm_compute; reflexivity|].
  split; [vm_compute; reflexivity|].
  split; [vm_compute; reflexivity|].
  split; vm_compute; reflexivity.
Qed.

(** X7. For every non-empty list of prices that are binary64 values on
    which lines 158-159 round nothing ([exact_for_ticks]), the y-range is
    computed (on the empty list [min] raises [ValueError]), the rounding of
    every float operation taken into account; both bounds are multiples of
    the tick, every price lies at least one tick above [low] and more than
    one tick less one unit below [high], and the range is at least two
    ticks high. *)
Theorem y_range_encloses_every_price :
  forall (p0 : price) (more : list price),
    Forall exact_for_ticks (p0 :: more) ->
    y_axis_range_float [] = Raise ValueError
    /\ exists low high : Z,
         y_axis_range_float (p0 :: more) = Ok (low, high)
         /\ low mod Y_TICK_INTERVAL = 0
         /\ high mod Y_TICK_INTERVAL = 0
         /\ Forall (fun p => (inject_Z low <= p - tickQ)%Q
                             /\ (p + tickQ - 1 < inject_Z high)%Q)
                   (p0 :: more)
         /\ 2 * Y_TICK_INTERVAL <= high - low.
Proof.
  intros p0 more Hexact. split; [reflexivity|].
  destruct (exact_range_encloses_every_price p0 more)
    as [Hinmin [Hinmax [Hm1 [Hm2 [Hall Hheight]]]]].
  cbv zeta in *.
  set (ymin := fold_left (fun m y => if Qltb y m then y else m) more p0) in *.
  set (ymax := fold_left (fun m y => if Qltb m y then y else m) more p0) in *.
  exists (y_low_float ymin), (y_high_float ymax).
  split; [reflexivity|].
  rewrite (proj1 (float_range_is_exact ymin
                    (proj1 (Forall_forall _ _) Hexact ymin Hinmin))).
  rewrite (proj2 (float_range_is_exact ymax
                    (proj1 (Forall_forall _ _) Hexact ymax Hinmax))).
  repeat split; assumption.
Qed.

Lemma whole_price_is_exact_for_ticks :
  forall (p : price) (z : Z),
    (p == inject_Z z)%Q -> Z.abs z + 500 < 2 ^ 53 -> exact_for_ticks p.
Proof.
  intros p z Hp Hz. exists z, 0. split; [lia | split].
  - rewrite Hp. change (Binary64.pow2 (- 0)) with 1%Q. ring.
  - change (2 ^ 0) with 1. lia.
Qed.

Lemma y_range_encloses_every_price_witness :
  exists low high : Z,
    y_axis_range_float [100 # 1; 201 # 2; 400 # 1] = Ok (low, high)
    /\ low mod Y_TICK_INTERVAL = 0
    /\ high mod Y_TICK_INTERVAL = 0
    /\ Forall (fun p => (inject_Z low <= p - tickQ)%Q
                        /\ (p + tickQ - 1 < inject_Z high)%Q)
              [100 # 1; 201 # 2; 400 # 1]
    /\ 2 * Y_TICK_INTERVAL <= high - low.
Proof.
  apply (y_range_encloses_every_price (100 # 1) [201 # 2; 400 # 1]).
  constructor; [|constructor; [|constructor; [|constructor]]].
  - apply (whole_price_is_exact_for_ticks _ 100); [reflexivity | reflexivity].
  - exists 201, 1. split; [lia | split; reflexivity].
  - apply (whole_price_is_exact_for_ticks _ 400); [reflexivity | reflexivity].
Defined.

(** The exact bounds are the nearest gridlines. *)
Lemma exact_bounds_are_the_nearest_gridlines :
  forall (ymin ymax : price) (z : Z),
    (ymax == inject_Z z)%Q ->
    (forall k : Z,
        (inject_Z (k * Y_TICK_INTERVAL) <= ymin - tickQ)%Q ->
        k * Y_TICK_INTERVAL <= y_low ymin)
    /\ z + Y_TICK_INTERVAL <= y_high ymax
    /\ (forall k : Z,
           z + Y_TICK_INTERVAL <= k * Y_TICK_INTERVAL ->
           y_high ymax <= k * Y_TICK_INTERVAL).
Proof.
  intros ymin ymax z Hz. split; [|split].
  - intros k Hk. unfold y_low, floordiv_tick.
    apply Z.mul_le_mono_nonneg_r; [discriminate|].
    rewrite <- (Qfloor_Z k). apply Qfloor_resp_le.
    apply Qle_shift_div_l; [reflexivity|].
    rewrite inject_Z_mult in Hk. exact Hk.
  - rewrite (y_high_integer ymax z Hz). unfold Y_TICK_INTERVAL.
    Z.to_euclidean_division_equations. lia.
  - intros k Hk. rewrite (y_high_integer ymax z Hz).
    unfold Y_TICK_INTERVAL in *.
    Z.to_euclidean_division_equations. lia.
Qed.



(** * Further properties of the feed client *)

Lemma yields_app :
  forall out out' : list action, yields (out ++ out') = yields out ++ yields out'.
Proof. intros. unfold yields. apply flat_map_app. Qed.

Lemma yields_of_yields :
  forall ps : list price, yields (map Yield ps) = ps.
Proof.
  induction ps as [|p ps IH]; [reflexivity|].
  change (yields (map Yield (p :: ps))) with (p :: yields (map Yield ps)).
  now rewrite IH.
Qed.

Lemma backoff_values_closed :
  forall b : Z, In b backoff_values -> In (Z.min (b * 2) 32) backoff_values.
Proof.
  intros b H. unfold backoff_values in *. simpl in H.
  decompose [or] H; subst; simpl; tauto.
Qed.

Section FeedMore.

Variable json_loads : string -> option json.
Variable float_of_str : string -> option price.

#[local] Abbreviation decode' := (Feed.decode_price json_loads float_of_str).
#[local] Abbreviation recv' := (Feed.receive json_loads float_of_str).
#[local] Abbreviation once' := (Feed.attempt_once json_loads float_of_str).
#[local] Abbreviation run_from' := (Feed.stream_from json_loads float_of_str).
#[local] Abbreviation good_frame' := (decodable json_loads float_of_str).
#[local] Abbreviation prices_of' := (decoded_prices json_loads float_of_str).
#[local] Abbreviation benign' := (transient json_loads float_of_str).
#[local] Abbreviation quiet' := (ends_quietly json_loads float_of_str).
#[local] Abbreviation all_prices' := (script_prices json_loads float_of_str).

Lemma receive_only_yields :
  forall (frames : list string) (fin : conn_end),
    exists ps, fst (recv' frames fin) = map Yield ps.
Proof.
  induction frames as [|msg frames IH]; intros fin; simpl.
  - exists []. reflexivity.
  - destruct (decode' msg) as [p|e].
    + destruct (IH fin) as [ps Hps].
      destruct (recv' frames fin) as [out r]. simpl in *.
      exists (p :: ps). now rewrite Hps.
    + exists []. reflexivity.
Qed.

(** The three ways one iteration of the outer loop can go. *)
Lemma attempt_cases :
  forall (b : Z) (a : attempt),
    exists (ps : list price) (b1 : Z),
      (b1 = b \/ b1 = 1)
      /\ (once' b a = (Connect :: map Yield ps, Looping 1)
          \/ once' b a = (Connect :: map Yield ps ++ [Sleep b1],
                          Looping (Z.min (b1 * 2) 32))
          \/ exists e, handled e = false
                       /\ once' b a = (Connect :: map Yield ps, Stopped e)).
Proof.
  intros b a. unfold Feed.attempt_once.
  destruct a as [e | frames fin].
  - exists [], b. split; [now left|].
    destruct (handled e) eqn:He.
    + right. left. reflexivity.
    + right. right. exists e. now split.
  - destruct (receive_only_yields frames fin) as [ps Hps].
    destruct (recv' frames fin) as [out r]. simpl in Hps. subst out.
    exists ps, 1. split; [now right|].
    destruct r as [e|].
    + destruct (handled e) eqn:He.
      * right. left. reflexivity.
      * right. right. exists e. now split.
    + left. reflexivity.
Qed.

Lemma stream_from_cons_stopped :
  forall (b : Z) (a : attempt) (rest : list attempt) (out : list action)
         (e : exn),
    once' b a = (out, Stopped e) ->
    run_from' b (a :: rest) = (out, Stopped e).
Proof.
  intros b a rest out e H. simpl. now rewrite H.
Qed.

Lemma sleeps_stay_in_range :
  forall (script : list attempt) (b : Z),
    In b backoff_values ->
    Forall (fun n => In n backoff_values) (sleeps (fst (run_from' b script)))
    /\ match snd (run_from' b script) with
       | Looping b' => In b' backoff_values
       | Stopped _ => True
       end.
Proof.
  induction script as [|a script IH]; intros b Hb.
  - simpl. split; [constructor | exact Hb].
  - destruct (attempt_cases b a) as [ps [b1 [Hb1 Hstep]]].
    assert (Hin1 : In b1 backoff_values)
      by (destruct Hb1; subst; [exact Hb | simpl; tauto]).
    destruct Hstep as [Hstep | [Hstep | [e [_ Hstep]]]].
    + rewrite (stream_from_cons_looping _ _ _ _ _ _ _ Hstep).
      destruct (IH 1) as [Hs Hl]; [simpl; tauto|].
      cbn [fst snd]. split; [|exact Hl].
      now rewrite sleeps_app, sleeps_after_connect, sleeps_of_yields.
    + rewrite (stream_from_cons_looping _ _ _ _ _ _ _ Hstep).
      destruct (IH (Z.min (b1 * 2) 32)) as [Hs Hl];
        [now apply backoff_values_closed|].
      cbn [fst snd]. split; [|exact Hl].
      rewrite sleeps_app, sleeps_after_connect, sleeps_app, sleeps_of_yields.
      simpl. constructor; assumption.
    + rewrite (stream_from_cons_stopped _ _ _ _ _ Hstep).
      cbn [fst snd]. split; [|exact I].
      rewrite sleeps_after_connect, sleeps_of_yields. constructor.
Qed.

(** X9. Whatever the network does, every sleep of the generator is one of
    1, 2, 4, 8, 16, 32 seconds, so never shorter than a second nor longer
    than 32, and so is the backoff it goes on with. *)
Theorem backoff_stays_between_1_and_32 :
  forall script : list attempt,
    Forall (fun n => In n backoff_values /\ 1 <= n <= 32)
           (sleeps (fst (Feed.stream_latest_price json_loads float_of_str
                           script)))
    /\ forall b, snd (Feed.stream_latest_price json_loads float_of_str script)
                 = Looping b -> In b backoff_values /\ 1 <= b <= 32.
Proof.
  intros script. unfold Feed.stream_latest_price.
  destruct (sleeps_stay_in_range script 1) as [Hs Hl]; [simpl; tauto|].
  assert (Hrange : forall n, In n backoff_values -> 1 <= n <= 32).
  { intros n Hn. unfold backoff_values in Hn. simpl in Hn.
    decompose [or] Hn; subst; lia. }
  split.
  - eapply Forall_impl; [|exact Hs]. intros n Hn. split; auto.
  - intros b Hb. rewrite Hb in Hl. split; auto.
Qed.

(** X10. The generator is left only by an exception its handler does not
    name, and once it is left nothing more happens: whatever the network
    would have done next, the run is the same. *)
Theorem stream_stops_only_on_unhandled :
  forall (script more : list attempt) (b : Z) (e : exn),
    snd (run_from' b script) = Stopped e ->
    handled e = false
    /\ run_from' b (script ++ more) = run_from' b script.
Proof.
  induction script as [|a script IH]; intros more b e H.
  - discriminate.
  - destruct (attempt_cases b a) as [ps [b1 [_ Hstep]]].
    rewrite <- app_comm_cons.
    destruct Hstep as [Hstep | [Hstep | [e' [He' Hstep]]]].
    + pose proof (stream_from_cons_looping _ _ _ _ _ script _ Hstep) as Hrun.
      assert (H' : snd (run_from' 1 script) = Stopped e).
      { etransitivity; [|exact H]. now rewrite Hrun. }
      destruct (IH more 1 e H') as [He Hmore].
      split; [exact He|].
      rewrite Hrun, (stream_from_cons_looping _ _ _ _ _ _ _ Hstep).
      now rewrite Hmore.
    + pose proof (stream_from_cons_looping _ _ _ _ _ script _ Hstep) as Hrun.
      assert (H' : snd (run_from' (Z.min (b1 * 2) 32) script) = Stopped e).
      { etransitivity; [|exact H]. now rewrite Hrun. }
      destruct (IH more _ e H') as [He Hmore].
      split; [exact He|].
      rewrite Hrun, (stream_from_cons_looping _ _ _ _ _ _ _ Hstep).
      now rewrite Hmore.
    + pose proof (stream_from_cons_stopped _ _ script _ _ Hstep) as Hrun.
      assert (H' : Stopped e' = Stopped e).
      { etransitivity; [|exact H]. now rewrite Hrun. }
      injection H' as <-.
      split; [exact He'|].
      now rewrite Hrun, (stream_from_cons_stopped _ _ _ _ _ Hstep).
Qed.

(** X11. As long as the network raises only exceptions the handler names
    and the frames decode, the consumer gets every price of every frame,
    once each and in the order of arrival, across all reconnections. *)
Theorem every_price_is_yielded_once_in_order :
  forall (script : list attempt) (b : Z),
    Forall benign' script ->
    yields (fst (run_from' b script)) = all_prices' script.
Proof.
  intros script b H. revert b.
  induction H as [|a script Ha _ IH]; intros b; [reflexivity|].
  unfold script_prices. cbn [flat_map]. fold (all_prices' script).
  destruct a as [e | frames fin].
  - simpl in Ha.
    rewrite (stream_from_cons_looping _ _ _ _ _ _ _
               (attempt_refused json_loads float_of_str b e Ha)).
    cbn [fst]. rewrite yields_app, IH. reflexivity.
  - destruct Ha as [Hframes Hfin].
    pose proof (attempt_opened json_loads float_of_str b frames fin
                  Hframes Hfin) as Hstep.
    destruct fin as [|e];
      rewrite (stream_from_cons_looping _ _ _ _ _ _ _ Hstep);
      cbn [fst]; rewrite yields_app, IH; f_equal.
    + change (Connect :: map Yield (prices_of' frames))
        with ([Connect] ++ map Yield (prices_of' frames)).
      rewrite yields_app, yields_of_yields. reflexivity.
    + change (Connect :: map Yield (prices_of' frames) ++ [Sleep 1])
        with ([Connect] ++ map Yield (prices_of' frames) ++ [Sleep 1]).
      rewrite !yields_app, yields_of_yields. simpl. apply app_nil_r.
Qed.

Lemma decode_raises_unhandled :
  forall (msg : string) (e : exn),
    decode' msg = Raise e ->
    In e [JSONDecodeError; KeyError; TypeError; ValueError].
Proof.
  intros msg e. unfold Feed.decode_price.
  destruct (json_loads msg) as [data|]; simpl.
  - destruct data as [|bv|x|str|items|members]; simpl;
      try (intros H; injection H as <-; simpl; tauto).
    destruct (find (fun kv => String.eqb (fst kv) "c") members) as [kv|]; simpl.
    + destruct (snd kv) as [|bv|x|str|items|members']; simpl;
        try discriminate; try (intros H; injection H as <-; simpl; tauto).
      destruct (float_of_str str); [discriminate|].
      intros H; injection H as <-; simpl; tauto.
    + intros H; injection H as <-; simpl; tauto.
  - intros H; injection H as <-; simpl; tauto.
Qed.


(** X13. Connections whose frame iterator ends without an exception are
    followed by no sleep at all: the generator reconnects at once, as many
    times as that happens, and goes on with a backoff of 1. *)
Theorem quiet_ends_reconnect_without_sleeping :
  forall (script : list attempt) (b : Z),
    Forall quiet' script ->
    sleeps (fst (run_from' b script)) = []
    /\ connects (fst (run_from' b script)) = length script
    /\ snd (run_from' b script)
       = Looping (match script with [] => b | _ :: _ => 1 end).
Proof.
  intros script b H. revert b.
  induction H as [|a script Ha Hrest IH]; intros b.
  - repeat split.
  - destruct a as [e | frames [|e]]; try contradiction.
    simpl in Ha.
    pose proof (attempt_opened json_loads float_of_str b frames Exhausted
                  Ha I) as Hstep.
    rewrite (stream_from_cons_looping _ _ _ _ _ _ _ Hstep).
    destruct (IH 1) as [Hs [Hc Hl]]. cbn [fst snd].
    rewrite sleeps_app, connects_app, Hs, Hc.
    rewrite sleeps_after_connect, connects_after_connect.
    rewrite sleeps_of_yields, connects_of_yields.
    repeat split. rewrite Hl. now destruct script.
Qed.

End FeedMore.

Lemma stream_stops_only_on_unhandled_witness :
  handled KeyError = false
  /\ Feed.stream_from demo_loads demo_float 1
       ([Refused OSError; Opened ["{}"%string] Exhausted]
        ++ [Opened [ticker_frame] Exhausted])
     = Feed.stream_from demo_loads demo_float 1
         [Refused OSError; Opened ["{}"%string] Exhausted].
Proof.
  apply (stream_stops_only_on_unhandled demo_loads demo_float
           [Refused OSError; Opened ["{}"%string] Exhausted]
           [Opened [ticker_frame] Exhausted] 1 KeyError).
  reflexivity.
Defined.

Lemma every_price_is_yielded_once_in_order_witness :
  yields (fst (Feed.stream_from demo_loads demo_float 1
                 [Opened [ticker_frame; ticker_frame] (Broken OSError);
                  Refused InvalidStatusCode;
                  Opened [ticker_frame] Exhausted]))
  = script_prices demo_loads demo_float
      [Opened [ticker_frame; ticker_frame] (Broken OSError);
       Refused InvalidStatusCode;
       Opened [ticker_frame] Exhausted].
Proof.
  apply (every_price_is_yielded_once_in_order demo_loads demo_float).
  repeat constructor; exact ticker_frame_decodes.
Defined.


Lemma quiet_ends_reconnect_without_sleeping_witness :
  sleeps (fst (Feed.stream_from demo_loads demo_float 16
                 [Opened [ticker_frame] Exhausted; Opened [] Exhausted;
                  Opened [] Exhausted]))
  = []
  /\ connects (fst (Feed.stream_from demo_loads demo_float 16
                      [Opened [ticker_frame] Exhausted; Opened [] Exhausted;
                       Opened [] Exhausted]))
     = 3%nat.
Proof.
  destruct (quiet_ends_reconnect_without_sleeping demo_loads demo_float
              [Opened [ticker_frame] Exhausted; Opened [] Exhausted;
               Opened [] Exhausted] 16) as [Hs [Hc _]].
  - repeat constructor. exact ticker_frame_decodes.
  - split; [exact Hs | exact Hc].
Defined.

(** * The once-a-second printer *)

Lemma update_price_replaces :
  forall (p : price) (q : Printer.price_queue),
    (length q <= 1)%nat -> Printer.update_price p q = Some [p].
Proof.
  intros p q H. destruct q as [|x [|y q]]; [reflexivity | reflexivity |].
  simpl in H. lia.
Qed.

Lemma gather_from_slot :
  forall (evs : list Printer.event) (latest_price : option price)
         (q : Printer.price_queue),
    (length q <= 1)%nat ->
    Printer.gather evs latest_price q
    = Some (Printer.latest_at_prints evs
              (match q with
               | p :: _ => Some p
               | [] => latest_price
               end)).
Proof.
  induction evs as [|ev evs IH]; intros latest_price q Hq; [reflexivity|].
  destruct ev as [p|].
  - cbn [Printer.gather Printer.latest_at_prints].
    rewrite (update_price_replaces p q Hq).
    now rewrite (IH latest_price [p]) by (simpl; lia).
  - destruct q as [|x [|y q]]; [| |simpl in Hq; lia].
    + cbn -[Printer.latest_at_prints].
      rewrite (IH latest_price []) by (simpl; lia).
      now destruct latest_price.
    + cbn -[Printer.latest_at_prints].
      now rewrite (IH (Some x) []) by (simpl; lia).
Qed.

Lemma no_waiting_once_a_price_is_known :
  forall (evs : list Printer.event) (p : price),
    ~ In Printer.Waiting (Printer.latest_at_prints evs (Some p)).
Proof.
  induction evs as [|ev evs IH]; intros p; simpl.
  - tauto.
  - destruct ev as [p'|]; [apply IH|].
    simpl. intros [H | H]; [discriminate | now apply (IH p)].
Qed.

Lemma waiting_before_any_price :
  forall quiet : list Printer.event,
    Forall (fun ev => ev = Printer.Prints) quiet ->
    forall rest,
      Printer.latest_at_prints (quiet ++ rest) None
      = repeat Printer.Waiting (length quiet)
        ++ Printer.latest_at_prints rest None.
Proof.
  intros quiet H. induction H as [|ev quiet -> _ IH]; intros rest.
  - reflexivity.
  - simpl. now rewrite IH.
Qed.

(** X14. However the arrivals of prices and the wake-ups of the printer
    interleave, [update_price] is never left waiting in its [put], and each
    wake-up prints the last price that arrived before it, repeating it when
    nothing new came.  The waiting line is printed only before the first
    price: wake-ups before it all print it, and none after it does. *)
Theorem printer_shows_the_latest_price :
  forall (quiet : list Printer.event) (p : price) (rest : list Printer.event),
    Forall (fun ev => ev = Printer.Prints) quiet ->
    (forall evs,
        Printer.print_price_every_second evs
        = Some (Printer.latest_at_prints evs None))
    /\ Printer.print_price_every_second (quiet ++ Printer.Arrives p :: rest)
       = Some (repeat Printer.Waiting (length quiet)
               ++ Printer.latest_at_prints rest (Some p))
    /\ ~ In Printer.Waiting (Printer.latest_at_prints rest (Some p)).
Proof.
  intros quiet p rest Hquiet.
  assert (Hall : forall evs,
             Printer.print_price_every_second evs
             = Some (Printer.latest_at_prints evs None)).
  { intros evs. unfold Printer.print_price_every_second.
    now rewrite gather_from_slot by (simpl; lia). }
  split; [exact Hall | split].
  - rewrite Hall, (waiting_before_any_price quiet Hquiet). reflexivity.
  - apply no_waiting_once_a_price_is_known.
Qed.

Lemma printer_shows_the_latest_price_witness :
  Printer.print_price_every_second
    ([Printer.Prints; Printer.Prints]
     ++ Printer.Arrives (7 # 1)
        :: [Printer.Arrives (8 # 1); Printer.Prints; Printer.Prints;
            Printer.Arrives (9 # 1); Printer.Prints])
  = Some (repeat Printer.Waiting 2
          ++ [Printer.Shows (8 # 1); Printer.Shows (8 # 1);
              Printer.Shows (9 # 1)]).
Proof.
  apply (printer_shows_the_latest_price
           [Printer.Prints; Printer.Prints] (7 # 1)
           [Printer.Arrives (8 # 1); Printer.Prints; Printer.Prints;
            Printer.Arrives (9 # 1); Printer.Prints]).
  repeat constructor.
Defined.
